(** * uniqid: a shard-aware, time-sortable identifier generator

    A shallow embedding of [uniqid.go] and the properties of its
    identifier layout, generation protocol, shard resolution and
    package-level default generator.

    Go's fixed-width integers are modelled as [Z] with the wrap-around
    written out; the wall clock ([deps.nowFunc]) is the list of readings
    it is still going to return, threaded through a small state-and-failure
    monad: a computation that asks for a reading the clock does not hold
    yields [None], which is how a spin-wait that never sees the tick
    advance shows up in the model. *)

From Stdlib Require Import ZArith List String Ascii Strings.Byte Bool Lia Sorted.
Import ListNotations.
Local Open Scope string_scope.
Local Open Scope Z_scope.

(** ** Machine integers *)

Module Int.

(** Two's-complement reduction to [int64]. *)
Definition wrap64 (z : Z) : Z := (z + 2 ^ 63) mod 2 ^ 64 - 2 ^ 63.

(** Conversion [uint64(x)] of an [int64]. *)
Definition uint64 (z : Z) : Z := z mod 2 ^ 64.

(** Conversion [uint16(x)]. *)
Definition uint16 (z : Z) : Z := z mod 2 ^ 16.

(** Conversion [uint32(x)]. *)
Definition uint32 (z : Z) : Z := z mod 2 ^ 32.

(** [a - b] on [int64]. *)
Definition sub64 (a b : Z) : Z := wrap64 (a - b).

(** [a + b] on [int64]. *)
Definition add64 (a b : Z) : Z := wrap64 (a + b).

(** [x << n] on [uint64]. *)
Definition shl64 (x : Z) (n : Z) : Z := uint64 (Z.shiftl x n).

Definition in_int64 (z : Z) : Prop := - 2 ^ 63 <= z < 2 ^ 63.

End Int.
Import Int.

(** ** Constants ([uniqid.go], lines 15-16) *)

Definition alphabet : string :=
  "ABCDEFGHIJKLMNOPQRSTUVWXYZabcdefghijklmnopqrstuvwxyz0123456789-_".

Definition defaultEpochMs : Z := 1577836800000.

(** ** Errors

    The source builds its errors with [errors.New]; they are kept as the
    message they carry. *)

Definition error : Type := string.

(** [errors.New("shardID must be 0..1023")], line 87. *)
Definition InvalidShard : error := "shardID must be 0..1023".

(** [errors.New("could not determine shard ID")], line 210. *)
Definition NoSignalAvailable : error := "could not determine shard ID".

(** ** Data ([Config], [Generator], [deps]) *)

Record Config : Type := mkConfig {
  ShardID : Z;
  CustomEpochMs : Z
}.

(** The mutex and the [deps] bundle of [Generator] are not fields here:
    calls are sequential, and the only dependency [Next] consults, the
    clock, is threaded explicitly. *)
Record Generator : Type := mkGenerator {
  lastMs : Z;
  seq : Z;
  shard : Z;
  baseEpoch : Z
}.

(** ** The clock and the monad of clock-reading computations *)

Definition Clock : Type := list Z.

Definition M (A : Type) : Type := Clock -> option (A * Clock).

Definition ret {A} (a : A) : M A := fun clk => Some (a, clk).

Definition bind {A B} (m : M A) (k : A -> M B) : M B :=
  fun clk =>
    match m clk with
    | Some (a, clk') => k a clk'
    | None => None
    end.

Notation "x <- m ;; k" := (bind m (fun x => k))
  (at level 61, m at next level, right associativity).
Notation "m ;;; k" := (bind m (fun _ => k))
  (at level 61, right associativity).

(** One call of [deps.nowFunc]. *)
Definition nowFunc : M Z :=
  fun clk =>
    match clk with
    | [] => None
    | t :: rest => Some (t, rest)
    end.

(** ** [spinUntilNextMs] (lines 216-226)

    Every iteration reads the clock once; the yield and the sleep between
    iterations have no effect on the state. *)
Fixpoint spinUntilNextMs (baseEpoch lastMs : Z) (clk : Clock)
  : option (unit * Clock) :=
  match clk with
  | [] => None
  | t :: rest =>
      let target := add64 lastMs 1 in
      let now := sub64 t baseEpoch in
      if target <=? now then Some (tt, rest)
      else spinUntilNextMs baseEpoch lastMs rest
  end.

(** ** Packing and rendering (lines 163-170) *)

(** [(uint64(nowMs) << 25) | (uint64(shard) << 15) | uint64(seq)] *)
Definition pack (nowMs shard seq : Z) : Z :=
  Z.lor (Z.lor (shl64 (uint64 nowMs) 25) (shl64 (uint64 shard) 15))
        (uint64 seq).

(** [alphabet[i]]; an index outside the string panics in Go and cannot
    arise from [val & 63]. *)
Definition alphabet_at (i : Z) : ascii :=
  match String.get (Z.to_nat i) alphabet with
  | Some c => c
  | None => "000"%char
  end.

(** The loop [for i := 10; i >= 0; i--], with [n] the number of
    positions still to fill and [out] the suffix already written. *)
Fixpoint encode_loop (n : nat) (val : Z) (out : string) : string :=
  match n with
  | O => out
  | S n' =>
      encode_loop n' (Z.shiftr val 6)
                  (String (alphabet_at (Z.land val 63)) out)
  end.

Definition encode (val : Z) : string := encode_loop 11 val "".

(** ** [Next] (lines 146-171) *)

(** [g.seq++] on a [uint16]. *)
Definition incr16 (s : Z) : Z := uint16 (s + 1).

(** Lines 147-164: the state update and the packed value, for one
    caller at a time.  The mutex is released around the spin-wait (lines
    152-154); what other goroutines do to the generator meanwhile is not
    part of this model, which describes calls made one after another. *)
Definition NextVal (g : Generator) : M (Z * Generator) :=
  t <- nowFunc ;;
  let nowMs := Z.max (sub64 t (baseEpoch g)) (lastMs g) in
  if nowMs =? lastMs g then
    let seq1 := incr16 (seq g) in
    if 2 ^ 15 <=? seq1 then
      spinUntilNextMs (baseEpoch g) nowMs ;;;
      t2 <- nowFunc ;;
      let nowMs2 := sub64 t2 (baseEpoch g) in
      ret (pack nowMs2 (shard g) 0,
           mkGenerator nowMs2 0 (shard g) (baseEpoch g))
    else
      ret (pack nowMs (shard g) seq1,
           mkGenerator (lastMs g) seq1 (shard g) (baseEpoch g))
  else
    ret (pack nowMs (shard g) 0,
         mkGenerator nowMs 0 (shard g) (baseEpoch g)).

Definition Next (g : Generator) : M (string * Generator) :=
  r <- NextVal g ;;
  ret (encode (fst r), snd r).

(** [n] successive calls on one generator: the identifiers in issuance
    order and the generator afterwards. *)
Fixpoint issue (n : nat) (g : Generator) : M (list string * Generator) :=
  match n with
  | O => ret ([], g)
  | S n' =>
      r <- Next g ;;
      rs <- issue n' (snd r) ;;
      ret (fst r :: fst rs, snd rs)
  end.

(** The packed values behind [issue]. *)
Fixpoint issueVal (n : nat) (g : Generator) : M (list Z * Generator) :=
  match n with
  | O => ret ([], g)
  | S n' =>
      r <- NextVal g ;;
      rs <- issueVal n' (snd r) ;;
      ret (fst r :: fst rs, snd rs)
  end.

(** ** Results of fallible calls: Go's [(value, error)] with exactly one
    of the two meaningful *)

Inductive result (A : Type) : Type :=
| Ok (a : A)
| Err (e : error).
Arguments Ok {A} a.
Arguments Err {A} e.

(** ** System dependencies ([deps], lines 180-185)

    The answers the system gives when asked: what [net.Interfaces]
    returns (list and error, the source looks at the list only), what
    [os.Hostname] returns, and what [rand.Read] leaves in the two-byte
    buffer it is handed together with its error.  [nowFunc] is the
    [Clock]. *)

Record Interface : Type := mkInterface {
  Flags : Z;
  HardwareAddr : list byte
}.

(** [net.FlagLoopback], the third flag of [net.Flags] ([1 << 2]). *)
Definition FlagLoopback : Z := 4.

Record deps : Type := mkDeps {
  ifacesFunc : list Interface * option error;
  hostFunc : string * option error;
  randFunc : byte * byte -> (byte * byte) * option error
}.

Definition byteZ (b : byte) : Z := Z.of_N (Byte.to_N b).

(** [hash/fnv]'s 32-bit FNV-1a: [New32a], [Write], [Sum32]. *)
Definition offset32 : Z := 2166136261.
Definition prime32 : Z := 16777619.

Definition fnv32a (data : list byte) : Z :=
  fold_left (fun h b => uint32 (Z.lxor h (byteZ b) * prime32)) data offset32.

(** [binary.BigEndian.Uint16] *)
Definition bigEndianUint16 (b : byte * byte) : Z :=
  Z.lor (Z.shiftl (byteZ (fst b)) 8) (byteZ (snd b)).

(** The [for _, in := range ifs] loop of lines 192-199: the hardware
    address of the first interface that is neither loopback nor without
    address. *)
Fixpoint firstHardwareAddr (ifs : list Interface) : option (list byte) :=
  match ifs with
  | [] => None
  | i :: rest =>
      if negb (Z.land (Flags i) FlagLoopback =? 0)
         || (List.length (HardwareAddr i) =? 0)%nat
      then firstHardwareAddr rest
      else Some (HardwareAddr i)
  end.

(** ** [autoShardWithDeps] (lines 190-211) *)
Definition autoShardWithDeps (d : deps) : result Z :=
  match firstHardwareAddr (fst (ifacesFunc d)) with
  | Some mac => Ok (uint16 (Z.land (fnv32a mac) 1023))
  | None =>
      match hostFunc d with
      | (hn, None) =>
          Ok (uint16 (Z.land (fnv32a (list_byte_of_string hn)) 1023))
      | (_, Some _) =>
          match randFunc d (x00, x00) with
          | (b, None) => Ok (Z.land (bigEndianUint16 b) 1023)
          | (_, Some _) => Err NoSignalAvailable
          end
      end
  end.

(** ** [New] (lines 66-99)

    [autoShardFunc] is a package variable; [NewWith] takes it as an
    argument and [New] is the package as it is initialised. *)
Definition NewWith (autoShardFunc : deps -> result Z)
           (d : deps) (cfg : option Config) : result Generator :=
  let cfg := match cfg with
             | None => mkConfig (-1) defaultEpochMs
             | Some c => c
             end in
  let epoch := if CustomEpochMs cfg =? 0 then defaultEpochMs
               else CustomEpochMs cfg in
  if 0 <=? ShardID cfg then
    if 1023 <? ShardID cfg then Err InvalidShard
    else Ok (mkGenerator 0 0 (uint16 (ShardID cfg)) epoch)
  else
    match autoShardFunc d with
    | Err e => Err e
    | Ok s => Ok (mkGenerator 0 0 s epoch)
    end.

Definition New : deps -> option Config -> result Generator :=
  NewWith autoShardWithDeps.

(** ** The package-level default generator and [Gen] (lines 101-137) *)

Record Package : Type := mkPackage {
  defaultGen : option Generator;
  defaultGenErr : option error;
  defaultGenOnce : bool
}.

(** The package at process start. *)
Definition initialPackage : Package := mkPackage None None false.

(** [defaultGenOnce.Do(func() { defaultGen, defaultGenErr = newFunc(nil) })] *)
Definition onceDo (newFunc : option Config -> result Generator)
           (p : Package) : Package :=
  if defaultGenOnce p then p
  else match newFunc None with
       | Ok g => mkPackage (Some g) None true
       | Err e => mkPackage None (Some e) true
       end.

(** [Gen(cfgs...)]: the identifier and the error it returns, and the
    package afterwards.  [newFunc] is the package variable of line 107 as
    it stands when the call is made. *)
Definition Gen (newFunc : option Config -> result Generator)
           (cfgs : list (option Config)) (p : Package)
  : M ((string * option error) * Package) :=
  match cfgs with
  | [] =>
      let p1 := onceDo newFunc p in
      match defaultGenErr p1 with
      | Some e => ret (("", Some e), p1)
      | None =>
          match defaultGen p1 with
          | Some g =>
              r <- Next g ;;
              ret ((fst r, None),
                   mkPackage (Some (snd r)) (defaultGenErr p1)
                             (defaultGenOnce p1))
          | None => fun _ => None
          end
      end
  | cfg :: _ =>
      match newFunc cfg with
      | Err e => ret (("", Some e), p)
      | Ok g => r <- Next g ;; ret ((fst r, None), p)
      end
  end.

(** ** Reading an identifier back

    The layout of the packed value (39-bit tick, 10-bit shard, 15-bit
    sequence) and the alphabet's index order; none of this is in the
    source, which never decodes. *)

Definition tick_of (val : Z) : Z := Z.shiftr val 25.
Definition shard_of (val : Z) : Z := Z.land (Z.shiftr val 15) 1023.
Definition seq_of (val : Z) : Z := Z.land val 32767.

Definition fields (val : Z) : Z * Z := (tick_of val, seq_of val).

(** Strict lexicographic order on (tick, sequence) pairs. *)
Definition pair_lt (a b : Z * Z) : Prop :=
  fst a < fst b \/ (fst a = fst b /\ snd a < snd b).

(** Position of a character in [s]; the length of [s] when absent. *)
Fixpoint index_in (c : ascii) (s : string) : Z :=
  match s with
  | EmptyString => 0
  | String c' rest => if Ascii.eqb c c' then 0 else 1 + index_in c rest
  end.

Definition alphabet_index (c : ascii) : Z := index_in c alphabet.

Fixpoint indices (s : string) : list Z :=
  match s with
  | EmptyString => []
  | String c rest => alphabet_index c :: indices rest
  end.

(** Strict lexicographic order on index sequences. *)
Fixpoint lex_ltb (l1 l2 : list Z) : bool :=
  match l1, l2 with
  | [], [] => false
  | [], _ :: _ => true
  | _ :: _, [] => false
  | a :: r1, b :: r2 => (a <? b) || ((a =? b) && lex_ltb r1 r2)
  end.

(** String comparison by alphabet index order. *)
Definition str_lt (s1 s2 : string) : Prop :=
  lex_ltb (indices s1) (indices s2) = true.

(** The value an index sequence denotes in base 64. *)
Definition decode (s : string) : Z :=
  fold_left (fun acc d => acc * 64 + d) (indices s) 0.

(** Membership of a character in a string. *)
Fixpoint occurs (c : ascii) (s : string) : Prop :=
  match s with
  | EmptyString => False
  | String c' rest => c = c' \/ occurs c rest
  end.

(** Every character of [s] satisfies [P]. *)
Fixpoint all_chars (P : ascii -> Prop) (s : string) : Prop :=
  match s with
  | EmptyString => True
  | String c rest => P c /\ all_chars P rest
  end.

(** ** Generator states within the layout *)

Record wf (g : Generator) : Prop := mkWf {
  wf_tick : 0 <= lastMs g < 2 ^ 39;
  wf_seq : 0 <= seq g < 2 ^ 15;
  wf_shard : 0 <= shard g < 2 ^ 10
}.

(** The call [Next] on [g] against [clk] goes through the
    sequence-exhaustion path, its spin-wait returns, and the reading
    taken afterwards (line 155) is not above the tick that was waited
    out. *)
Definition regressed (g : Generator) (clk : Clock) : bool :=
  match clk with
  | [] => false
  | t :: clk1 =>
      let nowMs := Z.max (sub64 t (baseEpoch g)) (lastMs g) in
      (nowMs =? lastMs g) && (2 ^ 15 <=? incr16 (seq g)) &&
      match spinUntilNextMs (baseEpoch g) nowMs clk1 with
      | Some (_, t2 :: _) => sub64 t2 (baseEpoch g) <=? lastMs g
      | _ => false
      end
  end.

(** Along [n] successive calls no recorded tick leaves the 39-bit field
    and no call is [regressed]. *)
Fixpoint in_layout (n : nat) (g : Generator) (clk : Clock) : bool :=
  match n with
  | O => true
  | S n' =>
      negb (regressed g clk) &&
      match NextVal g clk with
      | Some ((_, g'), clk') => (lastMs g' <? 2 ^ 39) && in_layout n' g' clk'
      | None => true
      end
  end.

(** The [n] base-64 digits of [val], most significant first. *)
Fixpoint digits (n : nat) (val : Z) : list Z :=
  match n with
  | O => []
  | S n' => digits n' (val / 64) ++ [val mod 64]
  end.

(** A clock held at one reading for [n] calls of [nowFunc]. *)
Definition frozen (n : nat) (t : Z) : Clock := repeat t n.

(** The state a generator holds of its last identifier. *)
Definition key (g : Generator) : Z * Z := (lastMs g, seq g).

(** [val] is a packed value of shard [sh] whose fields fit the layout. *)
Definition packed (sh : Z) (val : Z) : Prop :=
  exists t s, 0 <= t < 2 ^ 39 /\ 0 <= s < 2 ^ 15 /\ val = pack t sh s.

(** An interface the loop of lines 192-199 passes over. *)
Definition skipped (i : Interface) : Prop :=
  Z.land (Flags i) FlagLoopback <> 0 \/ HardwareAddr i = [].

(** The package after an initialisation that failed with [e]. *)
Definition failedPackage (e : error) : Package :=
  mkPackage None (Some e) true.

(** ** Sample environments

    The host name alone answers (behind a loopback interface and an
    interface without address); randomness alone answers; nothing
    answers. *)

Definition hostOnlyDeps : deps :=
  mkDeps ([mkInterface 5 [xde; xad; xbe; xef]; mkInterface 1 []], None)
         ("test-host", None)
         (fun b => (b, Some "rand error")).

Definition randOnlyDeps : deps :=
  mkDeps ([], Some "net error") ("", Some "host error")
         (fun _ => ((xab, xcd), None)).

Definition bareDeps : deps :=
  mkDeps ([], Some "net error") ("", Some "host error")
         (fun b => (b, Some "rand error")).

(** A loopback interface, an interface without address and two usable
    ones, reported together with an error; no host name, no randomness. *)
Definition macDeps : deps :=
  mkDeps ([mkInterface 5 [xde; xad; xbe; xef]; mkInterface 1 [];
           mkInterface 1 [x01; x02; x03; x04; x05; x06];
           mkInterface 1 [x01; x02; x03; x04; x05; x07]],
          Some "partial")
         ("", Some "host error")
         (fun b => (b, Some "rand error")).

(** ** Runs of [Gen] and raw character order *)

(** [n] successive calls [Gen()] (no configuration) with the package
    variable [newFunc] unchanged: what each call returns, in order, and
    the package afterwards. *)
Fixpoint gens (n : nat) (newFunc : option Config -> result Generator)
         (p : Package) : M (list (string * option error) * Package) :=
  match n with
  | O => ret ([], p)
  | S n' =>
      r <- Gen newFunc [] p ;;
      rs <- gens n' newFunc (snd r) ;;
      ret (fst r :: fst rs, snd rs)
  end.

(** Strict lexicographic order by character code, the order of Go's
    [<] on strings. *)
Fixpoint byte_ltb (s1 s2 : string) : bool :=
  match s1, s2 with
  | EmptyString, EmptyString => false
  | EmptyString, String _ _ => true
  | String _ _, EmptyString => false
  | String a r1, String b r2 =>
      (N_of_ascii a <? N_of_ascii b)%N
      || ((N_of_ascii a =? N_of_ascii b)%N && byte_ltb r1 r2)
  end.

(** The condition under which [Next] enters the spin-wait: the reading
    [t] is within the recorded tick and the incremented sequence leaves
    the 15-bit field. *)
Definition exhausted (g : Generator) (t : Z) : Prop :=
  sub64 t (baseEpoch g) <= lastMs g /\ 2 ^ 15 <= incr16 (seq g).


(** * Properties *)

(** ** Machine integers *)

Lemma wrap64_small z : in_int64 z -> wrap64 z = z.
Proof.
  unfold in_int64, wrap64; intros H.
  rewrite Z.mod_small by lia. lia.
Qed.

Lemma wrap64_range z : in_int64 (wrap64 z).
Proof.
  unfold in_int64, wrap64.
  pose proof (Z.mod_pos_bound (z + 2 ^ 63) (2 ^ 64) ltac:(lia)). lia.
Qed.

Lemma uint64_small z : 0 <= z < 2 ^ 64 -> uint64 z = z.
Proof. intros; unfold uint64; now apply Z.mod_small. Qed.

Lemma uint16_small z : 0 <= z < 2 ^ 16 -> uint16 z = z.
Proof. intros; unfold uint16; now apply Z.mod_small. Qed.

Lemma land_shifted_low a b n :
  0 <= n -> 0 <= b < 2 ^ n -> Z.land (a * 2 ^ n) b = 0.
Proof.
  intros Hn Hb. apply Z.bits_inj'; intros m Hm.
  rewrite Z.land_spec, Z.bits_0.
  destruct (Z.ltb_spec m n) as [Hlt | Hge].
  - now rewrite Z.mul_pow2_bits_low.
  - rewrite <- (Z.mod_small b (2 ^ n)) by lia.
    rewrite Z.mod_pow2_bits_high by lia. apply andb_false_r.
Qed.

Lemma lor_shifted_low a b n :
  0 <= n -> 0 <= b < 2 ^ n -> Z.lor (a * 2 ^ n) b = a * 2 ^ n + b.
Proof.
  intros Hn Hb.
  pose proof (Z.add_lor_land (a * 2 ^ n) b) as H.
  rewrite land_shifted_low in H by assumption. lia.
Qed.

(** ** The packed value *)

Lemma pack_sum t sh s :
  0 <= t < 2 ^ 39 -> 0 <= sh < 2 ^ 10 -> 0 <= s < 2 ^ 15 ->
  pack t sh s = t * 2 ^ 25 + sh * 2 ^ 15 + s.
Proof.
  intros Ht Hsh Hs. unfold pack, shl64.
  rewrite !Z.shiftl_mul_pow2 by lia.
  rewrite (uint64_small t), (uint64_small sh), (uint64_small s) by lia.
  rewrite (uint64_small (t * 2 ^ 25)), (uint64_small (sh * 2 ^ 15)) by lia.
  rewrite (lor_shifted_low t (sh * 2 ^ 15) 25) by lia.
  replace (t * 2 ^ 25 + sh * 2 ^ 15)
    with ((t * 2 ^ 10 + sh) * 2 ^ 15) by lia.
  rewrite lor_shifted_low by lia. lia.
Qed.

Lemma pack_range t sh s :
  0 <= t < 2 ^ 39 -> 0 <= sh < 2 ^ 10 -> 0 <= s < 2 ^ 15 ->
  0 <= pack t sh s < 2 ^ 64.
Proof. intros; rewrite pack_sum by assumption; lia. Qed.

Lemma tick_of_pack t sh s :
  0 <= t < 2 ^ 39 -> 0 <= sh < 2 ^ 10 -> 0 <= s < 2 ^ 15 ->
  tick_of (pack t sh s) = t.
Proof.
  intros Ht Hsh Hs. unfold tick_of.
  rewrite pack_sum, Z.shiftr_div_pow2 by lia.
  symmetry; apply Z.div_unique with (r := sh * 2 ^ 15 + s); lia.
Qed.

Lemma seq_of_pack t sh s :
  0 <= t < 2 ^ 39 -> 0 <= sh < 2 ^ 10 -> 0 <= s < 2 ^ 15 ->
  seq_of (pack t sh s) = s.
Proof.
  intros Ht Hsh Hs. unfold seq_of.
  change 32767 with (Z.ones 15).
  rewrite pack_sum, Z.land_ones by lia.
  symmetry; apply Z.mod_unique with (q := t * 2 ^ 10 + sh); lia.
Qed.

Lemma shard_of_pack t sh s :
  0 <= t < 2 ^ 39 -> 0 <= sh < 2 ^ 10 -> 0 <= s < 2 ^ 15 ->
  shard_of (pack t sh s) = sh.
Proof.
  intros Ht Hsh Hs. unfold shard_of.
  change 1023 with (Z.ones 10).
  rewrite pack_sum, Z.shiftr_div_pow2, Z.land_ones by lia.
  assert (E : (t * 2 ^ 25 + sh * 2 ^ 15 + s) / 2 ^ 15 = t * 2 ^ 10 + sh).
  { symmetry; apply Z.div_unique with (r := s); lia. }
  rewrite E. symmetry; apply Z.mod_unique with (q := t); lia.
Qed.

(** ** The alphabet *)

Lemma alphabet_length : String.length alphabet = 64%nat.
Proof. reflexivity. Qed.

Lemma index_in_bounds c s :
  0 <= index_in c s <= Z.of_nat (String.length s).
Proof.
  induction s as [| c' r IH]; cbn [index_in String.length]; [lia |].
  rewrite Nat2Z.inj_succ. destruct (Ascii.eqb c c'); lia.
Qed.

Lemma index_in_occurs c s :
  index_in c s < Z.of_nat (String.length s) -> occurs c s.
Proof.
  induction s as [| c' r IH]; cbn [index_in String.length occurs]; [lia |].
  rewrite Nat2Z.inj_succ.
  destruct (Ascii.eqb_spec c c') as [-> | Hne]; [now left |].
  intros H; right; apply IH; lia.
Qed.

(** Looking a character up at an index and asking for its index are
    inverse on the 64 positions (checked position by position). *)
Lemma alphabet_index_at i :
  0 <= i < 64 -> alphabet_index (alphabet_at i) = i.
Proof.
  intros Hi.
  assert (All : forallb
                  (fun k => alphabet_index (alphabet_at (Z.of_nat k))
                            =? Z.of_nat k)
                  (List.seq 0 64) = true) by (vm_compute; reflexivity).
  rewrite forallb_forall in All.
  specialize (All (Z.to_nat i)).
  rewrite Z2Nat.id in All by lia.
  apply Z.eqb_eq, All, in_seq; lia.
Qed.

Lemma alphabet_at_occurs i :
  0 <= i < 64 -> occurs (alphabet_at i) alphabet.
Proof.
  intros Hi. apply index_in_occurs.
  fold (alphabet_index (alphabet_at i)).
  rewrite alphabet_index_at, alphabet_length by assumption. lia.
Qed.

Lemma land63_range val : 0 <= Z.land val 63 < 64.
Proof.
  change 63 with (Z.ones 6). rewrite Z.land_ones by lia.
  apply Z.mod_pos_bound; lia.
Qed.

(** ** Rendering *)

Lemma encode_loop_length n val out :
  String.length (encode_loop n val out) = (n + String.length out)%nat.
Proof.
  revert val out; induction n as [| n IH]; intros; simpl; [reflexivity |].
  rewrite IH; simpl; lia.
Qed.

Lemma encode_loop_chars P n val out :
  (forall i, 0 <= i < 64 -> P (alphabet_at i)) ->
  all_chars P out -> all_chars P (encode_loop n val out).
Proof.
  intros HP; revert val out; induction n as [| n IH]; intros val out Hout;
    simpl; [assumption |].
  apply IH; simpl; split; [apply HP, land63_range | assumption].
Qed.

Lemma indices_app s1 s2 : indices (s1 ++ s2) = (indices s1 ++ indices s2)%list.
Proof. induction s1 as [| c r IH]; simpl; [reflexivity | now rewrite IH]. Qed.

Lemma append_last s c out :
  ((s ++ String c "") ++ out)%string = (s ++ String c out)%string.
Proof. induction s as [| c' r IH]; simpl; [reflexivity | now rewrite IH]. Qed.

Lemma encode_loop_out n val out :
  encode_loop n val out = (encode_loop n val "" ++ out)%string.
Proof.
  revert val out; induction n as [| n IH]; intros; simpl; [reflexivity |].
  rewrite IH, (IH _ (String _ "")).
  now rewrite append_last.
Qed.

Lemma indices_encode_loop n val :
  indices (encode_loop n val "") = digits n val.
Proof.
  revert val; induction n as [| n IH]; intros; simpl; [reflexivity |].
  rewrite encode_loop_out, indices_app, IH; simpl.
  rewrite Z.shiftr_div_pow2 by lia.
  rewrite alphabet_index_at by apply land63_range.
  change 63 with (Z.ones 6); rewrite Z.land_ones by lia.
  reflexivity.
Qed.

(** ** Base-64 digits and their order *)

Lemma digits_length n val : List.length (digits n val) = n.
Proof.
  revert val; induction n as [| n IH]; intros; simpl; [reflexivity |].
  rewrite length_app, IH; simpl; lia.
Qed.

Lemma lex_ltb_irrefl l : lex_ltb l l = false.
Proof.
  induction l as [| a r IH]; simpl; [reflexivity |].
  rewrite Z.ltb_irrefl, IH; simpl. apply andb_false_r.
Qed.

Lemma lex_ltb_app l1 l2 r1 r2 :
  List.length l1 = List.length l2 ->
  lex_ltb (l1 ++ r1) (l2 ++ r2) = true <->
  lex_ltb l1 l2 = true \/ (l1 = l2 /\ lex_ltb r1 r2 = true).
Proof.
  revert l2; induction l1 as [| a l1 IH]; intros [| b l2] Hlen;
    simpl in *; try discriminate.
  - split; [now right | now intros [? | [_ ?]]].
  - injection Hlen as Hlen. specialize (IH l2 Hlen).
    rewrite !orb_true_iff, !andb_true_iff, IH, Z.ltb_lt, Z.eqb_eq.
    split.
    + intros [H | [E [H | [E' H]]]]; subst; auto.
    + intros [[H | [E H]] | [E H]]; auto.
      injection E as -> ->; auto.
Qed.

Lemma pow64_succ n : 64 ^ Z.of_nat (S n) = 64 * 64 ^ Z.of_nat n.
Proof. rewrite Nat2Z.inj_succ, Z.pow_succ_r by lia. reflexivity. Qed.

Lemma digits_inj n u v :
  0 <= u < 64 ^ Z.of_nat n -> 0 <= v < 64 ^ Z.of_nat n ->
  digits n u = digits n v -> u = v.
Proof.
  revert u v; induction n as [| n IH]; intros u v Hu Hv E.
  - simpl in *; lia.
  - rewrite pow64_succ in Hu, Hv. simpl in E.
    apply app_inj_tail in E as [E1 E2].
    apply IH in E1.
    + rewrite (Z.div_mod u 64), (Z.div_mod v 64) by lia. congruence.
    + split; [apply Z.div_pos; lia | apply Z.div_lt_upper_bound; lia].
    + split; [apply Z.div_pos; lia | apply Z.div_lt_upper_bound; lia].
Qed.

Lemma digits_lt n u v :
  0 <= u < 64 ^ Z.of_nat n -> 0 <= v < 64 ^ Z.of_nat n ->
  lex_ltb (digits n u) (digits n v) = true <-> u < v.
Proof.
  revert u v; induction n as [| n IH]; intros u v Hu Hv.
  - simpl in *; split; [discriminate | lia].
  - rewrite pow64_succ in Hu, Hv. simpl.
    assert (Hu' : 0 <= u / 64 < 64 ^ Z.of_nat n)
      by (split; [apply Z.div_pos; lia | apply Z.div_lt_upper_bound; lia]).
    assert (Hv' : 0 <= v / 64 < 64 ^ Z.of_nat n)
      by (split; [apply Z.div_pos; lia | apply Z.div_lt_upper_bound; lia]).
    rewrite lex_ltb_app by now rewrite !digits_length.
    rewrite (IH _ _ Hu' Hv'). simpl.
    rewrite orb_true_iff, andb_true_iff, Z.ltb_lt. 
    pose proof (Z.div_mod u 64 ltac:(lia)) as Du.
    pose proof (Z.div_mod v 64 ltac:(lia)) as Dv.
    pose proof (Z.mod_pos_bound u 64 ltac:(lia)).
    pose proof (Z.mod_pos_bound v 64 ltac:(lia)).
    split.
    + intros [H1 | [E [H2 | [_ H2]]]]; [lia | | discriminate].
      apply (digits_inj n _ _ Hu' Hv') in E. lia.
    + intros Hlt.
      destruct (Z.lt_ge_cases (u / 64) (v / 64)) as [Hq | Hq]; [now left |].
      right. assert (E : u / 64 = v / 64) by lia.
      split; [now rewrite E | left; lia].
Qed.

Lemma decode_digits n val :
  0 <= val < 64 ^ Z.of_nat n ->
  fold_left (fun acc d => acc * 64 + d) (digits n val) 0 = val.
Proof.
  revert val; induction n as [| n IH]; intros val Hv.
  - simpl in *; lia.
  - rewrite pow64_succ in Hv. simpl.
    rewrite fold_left_app; simpl. rewrite IH.
    + pose proof (Z.div_mod val 64 ltac:(lia)). lia.
    + split; [apply Z.div_pos; lia | apply Z.div_lt_upper_bound; lia].
Qed.

Lemma uint64_in_digits val : 0 <= val < 2 ^ 64 -> 0 <= val < 64 ^ Z.of_nat 11.
Proof. intros H. change (64 ^ Z.of_nat 11) with (2 ^ 66). lia. Qed.

Lemma encode_length val : String.length (encode val) = 11%nat.
Proof. unfold encode; now rewrite encode_loop_length. Qed.

Lemma encode_alphabet val :
  all_chars (fun c => occurs c alphabet) (encode val).
Proof.
  unfold encode; apply encode_loop_chars; [| exact I].
  intros i Hi; now apply alphabet_at_occurs.
Qed.

Lemma indices_encode val : indices (encode val) = digits 11 val.
Proof. apply indices_encode_loop. Qed.

Lemma decode_encode val : 0 <= val < 2 ^ 64 -> decode (encode val) = val.
Proof.
  intros H. unfold decode. rewrite indices_encode.
  now apply decode_digits, uint64_in_digits.
Qed.

Lemma encode_inj u v :
  0 <= u < 2 ^ 64 -> 0 <= v < 2 ^ 64 -> encode u = encode v -> u = v.
Proof.
  intros Hu Hv E.
  rewrite <- (decode_encode u Hu), <- (decode_encode v Hv). now rewrite E.
Qed.

Lemma encode_lt u v :
  0 <= u < 2 ^ 64 -> 0 <= v < 2 ^ 64 ->
  u < v <-> str_lt (encode u) (encode v).
Proof.
  intros Hu Hv. unfold str_lt. rewrite !indices_encode.
  symmetry; apply digits_lt; now apply uint64_in_digits.
Qed.

(** ** One call of [Next] *)

Lemma pair_lt_trans a b c : pair_lt a b -> pair_lt b c -> pair_lt a c.
Proof. unfold pair_lt; lia. Qed.

Lemma pair_lt_irrefl a : ~ pair_lt a a.
Proof. unfold pair_lt; lia. Qed.

Lemma incr16_wf g : wf g -> incr16 (seq g) = seq g + 1.
Proof.
  intros [_ Hs _]. unfold incr16. apply uint16_small. lia.
Qed.

(** What a call does to a state within the layout, provided the call is
    not [regressed] and the tick it records fits the field: the state
    moves strictly up in the lexicographic order and the packed value
    carries exactly the new state. *)
Lemma NextVal_step g clk v g' clk' :
  wf g ->
  NextVal g clk = Some ((v, g'), clk') ->
  regressed g clk = false ->
  lastMs g' < 2 ^ 39 ->
  wf g' /\ v = pack (lastMs g') (shard g') (seq g') /\
  pair_lt (key g) (key g') /\
  shard g' = shard g /\ baseEpoch g' = baseEpoch g.
Proof.
  intros Hwf Hrun Hreg Hfit.
  pose proof (incr16_wf g Hwf) as Hinc.
  destruct Hwf as [Ht Hs Hsh].
  unfold NextVal, bind, nowFunc, ret in Hrun.
  unfold regressed in Hreg.
  destruct clk as [| t clk1]; [discriminate |].
  cbv zeta in Hrun, Hreg.
  destruct (Z.eqb_spec (Z.max (sub64 t (baseEpoch g)) (lastMs g)) (lastMs g))
    as [Hsame | Hadv].
  - destruct (Z.leb_spec (2 ^ 15) (incr16 (seq g))) as [Hfull | Hroom].
    + destruct (spinUntilNextMs (baseEpoch g)
                  (Z.max (sub64 t (baseEpoch g)) (lastMs g)) clk1)
        as [[[] [| t2 clk3]] |]; try discriminate.
      injection Hrun as <- <- <-. simpl in *.
      apply Z.leb_gt in Hreg.
      repeat split; simpl; try lia.
      unfold pair_lt, key; simpl; lia.
    + injection Hrun as <- <- <-. simpl in *.
      rewrite Hsame.
      repeat split; simpl; try lia.
      unfold pair_lt, key; simpl; lia.
  - injection Hrun as <- <- <-. simpl in *.
    repeat split; simpl; try lia.
    unfold pair_lt, key; simpl; lia.
Qed.

(** ** Successive calls *)

Lemma issueVal_increasing n :
  forall g clk vals g' clk',
    wf g ->
    issueVal n g clk = Some ((vals, g'), clk') ->
    in_layout n g clk = true ->
    StronglySorted pair_lt (key g :: map fields vals) /\
    Forall (packed (shard g)) vals.
Proof.
  induction n as [| n IH]; intros g clk vals g' clk' Hwf Hrun Hlay.
  - injection Hrun as <- _ _. split; repeat constructor.
  - simpl in Hrun, Hlay. unfold bind in Hrun.
    destruct (NextVal g clk) as [[[v g1] clk1] |] eqn:Hstep; [| discriminate].
    simpl in Hrun.
    destruct (issueVal n g1 clk1) as [[[vs g2] clk2] |] eqn:Hrest;
      [| discriminate].
    injection Hrun as <- <- <-.
    apply andb_true_iff in Hlay as [Hreg Hlay].
    apply andb_true_iff in Hlay as [Hfit Hlay].
    apply negb_true_iff in Hreg. apply Z.ltb_lt in Hfit.
    destruct (NextVal_step _ _ _ _ _ Hwf Hstep Hreg Hfit)
      as (Hwf1 & Hv & Hlt & Hsh & _).
    destruct (IH _ _ _ _ _ Hwf1 Hrest Hlay) as [Hsorted Hpacked].
    destruct Hwf1 as [Ht1 Hs1 Hsh1].
    assert (Hf : fields v = key g1).
    { subst v. unfold fields, key.
      now rewrite tick_of_pack, seq_of_pack. }
    simpl. rewrite Hf. split.
    + constructor; [assumption |].
      constructor; [assumption |].
      apply StronglySorted_inv in Hsorted as [_ Hall].
      eapply Forall_impl; [| exact Hall].
      intros a Ha; eapply pair_lt_trans; eassumption.
    + constructor.
      * exists (lastMs g1), (seq g1). rewrite <- Hsh. auto.
      * now rewrite <- Hsh.
Qed.

Lemma issue_issueVal n :
  forall g clk,
    issue n g clk =
    match issueVal n g clk with
    | Some ((vals, g'), clk') => Some ((map encode vals, g'), clk')
    | None => None
    end.
Proof.
  induction n as [| n IH]; intros g clk; [reflexivity |].
  simpl. unfold Next, bind, ret.
  destruct (NextVal g clk) as [[[v g1] clk1] |]; [| reflexivity].
  simpl. rewrite IH.
  destruct (issueVal n g1 clk1) as [[[vs g2] clk2] |]; reflexivity.
Qed.

Lemma issueVal_S n g clk v g1 clk1 :
  NextVal g clk = Some ((v, g1), clk1) ->
  issueVal (S n) g clk =
  match issueVal n g1 clk1 with
  | Some ((vs, g2), clk2) => Some ((v :: vs, g2), clk2)
  | None => None
  end.
Proof.
  intros H. cbn [issueVal]. unfold bind at 1. rewrite H. cbn [fst snd].
  unfold bind, ret. destruct (issueVal n g1 clk1) as [[[vs g2] clk2] |];
    reflexivity.
Qed.

Lemma packed_range sh val :
  0 <= sh < 2 ^ 10 -> packed sh val -> 0 <= val < 2 ^ 64.
Proof. intros Hsh (t & s & Ht & Hs & ->). now apply pack_range. Qed.

Lemma packed_lt sh a b :
  0 <= sh < 2 ^ 10 -> packed sh a -> packed sh b ->
  pair_lt (fields a) (fields b) -> a < b.
Proof.
  intros Hsh (ta & sa & Hta & Hsa & ->) (tb & sb & Htb & Hsb & ->).
  unfold fields, pair_lt.
  rewrite !tick_of_pack, !seq_of_pack, !pack_sum by assumption.
  simpl. lia.
Qed.

Lemma StronglySorted_map_impl {A B} (R : A -> A -> Prop) (Q : B -> B -> Prop)
      (P : A -> Prop) (f : A -> B) (l : list A) :
  (forall a b, P a -> P b -> R a b -> Q (f a) (f b)) ->
  Forall P l -> StronglySorted R l -> StronglySorted Q (map f l).
Proof.
  intros HRQ HP HS. induction HS as [| a l HS IH Hall]; simpl; constructor.
  - apply IH. now inversion HP.
  - inversion HP as [| ? ? Pa Pl]; subst.
    apply Forall_map. rewrite Forall_forall in *.
    intros b Hb. apply HRQ; auto.
Qed.

Lemma StronglySorted_NoDup {A} (R : A -> A -> Prop) (l : list A) :
  (forall a, ~ R a a) -> StronglySorted R l -> NoDup l.
Proof.
  intros Hirr HS. induction HS as [| a l HS IH Hall]; constructor; auto.
  intros Hin. rewrite Forall_forall in Hall. exact (Hirr a (Hall a Hin)).
Qed.

Lemma str_lt_irrefl s : ~ str_lt s s.
Proof. unfold str_lt. now rewrite lex_ltb_irrefl. Qed.

Lemma StronglySorted_of_map {A B} (R : B -> B -> Prop) (f : A -> B) l :
  StronglySorted R (map f l) -> StronglySorted (fun a b => R (f a) (f b)) l.
Proof.
  induction l as [| a l IH]; simpl; intros HS; [constructor |].
  apply StronglySorted_inv in HS as [HS Hall].
  constructor; [now apply IH |].
  rewrite Forall_forall in *. intros b Hb. now apply Hall, in_map.
Qed.

Lemma decode_encode_all {C} (f : Z -> C) sh vals :
  0 <= sh < 2 ^ 10 -> Forall (packed sh) vals ->
  map (fun id => f (decode id)) (map encode vals) = map f vals.
Proof.
  intros Hsh Hall. rewrite map_map. apply map_ext_in.
  intros v Hv. rewrite Forall_forall in Hall.
  now rewrite decode_encode by (eapply packed_range; eauto).
Qed.

(** Identifiers issued by one generator within the layout come out in
    increasing string order. *)
Lemma issueVal_strings_sorted n g clk vals g' clk' :
  wf g ->
  issueVal n g clk = Some ((vals, g'), clk') ->
  in_layout n g clk = true ->
  StronglySorted str_lt (map encode vals).
Proof.
  intros Hwf Hrun Hlay.
  destruct (issueVal_increasing n _ _ _ _ _ Hwf Hrun Hlay) as [HS Hall].
  apply StronglySorted_inv in HS as [HS _].
  apply StronglySorted_of_map in HS.
  destruct Hwf as [_ _ Hsh].
  eapply StronglySorted_map_impl with (P := packed (shard g)); eauto.
  intros a b Pa Pb Hab. cbv beta in Hab.
  apply encode_lt; try (eapply packed_range; eauto).
  eapply packed_lt; eauto.
Qed.

(** C1 (as amended).  For one generator called sequentially, as long as
    the recorded ticks stay inside the 39-bit field and no call re-reads,
    after a sequence-exhaustion spin-wait, a clock value at or below the
    tick it waited out, the (tick, sequence) pairs embedded in successive
    results of [Next] are strictly lexicographically increasing, whatever
    the clock returns otherwise (readings earlier than the last recorded
    tick included); hence the tick field never decreases and the
    identifiers are pairwise distinct. *)
Theorem C1_pairs_strictly_increasing n g clk ids g' clk' :
  wf g ->
  issue n g clk = Some ((ids, g'), clk') ->
  in_layout n g clk = true ->
  StronglySorted pair_lt (map (fun id => fields (decode id)) ids) /\
  StronglySorted Z.le (map (fun id => tick_of (decode id)) ids) /\
  NoDup ids.
Proof.
  intros Hwf Hrun Hlay. rewrite issue_issueVal in Hrun.
  destruct (issueVal n g clk) as [[[vals g1] clk1] |] eqn:Hvals;
    [| discriminate].
  injection Hrun as <- <- <-.
  destruct (issueVal_increasing n _ _ _ _ _ Hwf Hvals Hlay) as [HS Hall].
  pose proof (issueVal_strings_sorted n _ _ _ _ _ Hwf Hvals Hlay) as Hstr.
  pose proof (wf_shard g Hwf) as Hsh.
  apply StronglySorted_inv in HS as [HS _].
  rewrite !(decode_encode_all _ (shard g)) by assumption.
  split; [assumption | split].
  - change tick_of with (fun v => fst (fields v)).
    rewrite <- (map_map fields fst).
    eapply StronglySorted_map_impl with (P := fun _ => True); eauto.
    + intros a b _ _. unfold pair_lt. lia.
    + apply Forall_forall; auto.
  - eapply StronglySorted_NoDup; [apply str_lt_irrefl | exact Hstr].
Qed.

(** A run of C1 on a clock that steps backward: the second reading is
    two milliseconds earlier than the first. *)
Lemma C1_pairs_strictly_increasing_witness :
  let ids := ["AAAAAAKAIAA"; "AAAAAAKAIAB"; "AAAAAAOAIAA"] in
  StronglySorted pair_lt (map (fun id => fields (decode id)) ids) /\
  StronglySorted Z.le (map (fun id => tick_of (decode id)) ids) /\
  NoDup ids.
Proof.
  apply (C1_pairs_strictly_increasing 3 (mkGenerator 0 0 1 1000)
           [1005; 1003; 1007] _ (mkGenerator 7 0 1 1000) []).
  - constructor; simpl; lia.
  - reflexivity.
  - reflexivity.
Defined.

(** C1 as stated fails once a tick leaves the 39-bit field: with shard 1
    and epoch 1000, the readings 1000, 1000 + 2^39, 1000 + 2^39 give the
    pairs (0,1), (0,0), (0,1); the second is below the first and the third
    identifier repeats the first. *)
Lemma C1_counterexample :
  let ids := ["AAAAAAAAIAB"; "AAAAAAAAIAA"; "AAAAAAAAIAB"] in
  New bareDeps (Some (mkConfig 1 1000)) = Ok (mkGenerator 0 0 1 1000) /\
  issue 3 (mkGenerator 0 0 1 1000) [1000; 1000 + 2 ^ 39; 1000 + 2 ^ 39]
  = Some ((ids, mkGenerator (2 ^ 39) 1 1 1000), []) /\
  map (fun id => fields (decode id)) ids = [(0, 1); (0, 0); (0, 1)] /\
  ~ StronglySorted pair_lt (map (fun id => fields (decode id)) ids) /\
  ~ NoDup ids.
Proof.
  cbv zeta. repeat split; try reflexivity.
  - intros HS. change (map _ _) with [(0, 1); (0, 0); (0, 1)] in HS.
    apply StronglySorted_inv in HS as [_ Hall].
    apply Forall_inv in Hall. unfold pair_lt in Hall; simpl in Hall. lia.
  - intros HN. apply NoDup_cons_iff in HN as [Hin _].
    apply Hin. right; left; reflexivity.
Qed.

(** C2 (as amended).  Rendering is total (always 11 characters), is
    inverted by [decode], hence injective, on the 64-bit unsigned values,
    and preserves order: [u < v] exactly when [encode u] is below
    [encode v] lexicographically by alphabet index.  Consequently the
    identifiers one generator issues when it is called sequentially (one
    call of [Next] after another, none overlapping) are in increasing
    string order, as long as the recorded ticks stay inside the 39-bit
    field and no call re-reads, after a sequence-exhaustion spin-wait, a
    clock value at or below the tick it waited out. *)
Theorem C2_encode_order_preserving :
  (forall u, String.length (encode u) = 11%nat) /\
  (forall u, 0 <= u < 2 ^ 64 -> decode (encode u) = u) /\
  (forall u v, 0 <= u < 2 ^ 64 -> 0 <= v < 2 ^ 64 ->
               encode u = encode v -> u = v) /\
  (forall u v, 0 <= u < 2 ^ 64 -> 0 <= v < 2 ^ 64 ->
               (u < v <-> str_lt (encode u) (encode v))) /\
  (forall n g clk ids g' clk',
      wf g ->
      issue n g clk = Some ((ids, g'), clk') ->
      in_layout n g clk = true ->
      StronglySorted str_lt ids).
Proof.
  split; [exact encode_length |].
  split; [exact decode_encode |].
  split; [exact encode_inj |].
  split; [exact encode_lt |].
  intros n g clk ids g' clk' Hwf Hrun Hlay.
  rewrite issue_issueVal in Hrun.
  destruct (issueVal n g clk) as [[[vals g1] clk1] |] eqn:Hvals;
    [| discriminate].
  injection Hrun as <- <- <-.
  eapply issueVal_strings_sorted; eauto.
Qed.

(** C2 at the values 61 and 62 (indices of ['9'] and ['-'], whose
    character codes are in the opposite order) and on a run of three
    calls of shard 7 whose clock steps backward. *)
Lemma C2_encode_order_preserving_witness :
  (decode (encode 61) = 61) /\
  (61 < 62 <-> str_lt "AAAAAAAAAA9" "AAAAAAAAAA-") /\
  StronglySorted str_lt ["AAAAAAUA4AA"; "AAAAAAUA4AB"; "AAAAAAUA4AC"].
Proof.
  destruct C2_encode_order_preserving as (_ & Hdec & _ & Hlt & Hrun).
  split; [apply Hdec; lia |].
  split; [apply (Hlt 61 62); lia |].
  apply (Hrun 3%nat (mkGenerator 0 0 7 defaultEpochMs)
              [1577836800010; 1577836800010; 1577836800009]
              _ (mkGenerator 10 2 7 defaultEpochMs) []).
  - constructor; simpl; lia.
  - reflexivity.
  - reflexivity.
Defined.

(** The final clause of C2 as stated fails once a tick leaves the 39-bit
    field: with shard 1 and epoch 1000, the readings 999 + 2^39 and
    1000 + 2^39 yield two identifiers of which the one issued second is
    the smaller string. *)
Lemma C2_counterexample :
  New bareDeps (Some (mkConfig 1 1000)) = Ok (mkGenerator 0 0 1 1000) /\
  issue 2 (mkGenerator 0 0 1 1000) [999 + 2 ^ 39; 1000 + 2 ^ 39]
  = Some ((["P_____-AIAA"; "AAAAAAAAIAA"], mkGenerator (2 ^ 39) 0 1 1000), []) /\
  str_lt "AAAAAAAAIAA" "P_____-AIAA" /\
  ~ StronglySorted str_lt ["P_____-AIAA"; "AAAAAAAAIAA"].
Proof.
  repeat split; try reflexivity.
  intros HS. apply StronglySorted_inv in HS as [_ Hall].
  apply Forall_inv in Hall. discriminate Hall.
Qed.

(** ** The spin-wait and the sequence-exhaustion path *)

Local Open Scope list_scope.

(** While the clock shows no tick above [last], the spin-wait does not
    return. *)
Lemma spin_blocks e last stalled :
  last < 2 ^ 63 - 1 -> - 2 ^ 63 <= last ->
  Forall (fun r => sub64 r e <= last) stalled ->
  spinUntilNextMs e last stalled = None.
Proof.
  intros Hhi Hlo Hall. induction Hall as [| r rs Hr _ IH]; simpl; [reflexivity |].
  unfold add64. rewrite wrap64_small by (unfold in_int64; lia).
  destruct (Z.leb_spec (last + 1) (sub64 r e)); [lia | exact IH].
Qed.

(** It returns at the first reading whose tick is above [last], having
    consumed the readings up to and including that one. *)
Lemma spin_returns e last stalled t rest :
  last < 2 ^ 63 - 1 -> - 2 ^ 63 <= last ->
  Forall (fun r => sub64 r e <= last) stalled ->
  last < sub64 t e ->
  spinUntilNextMs e last (stalled ++ t :: rest) = Some (tt, rest).
Proof.
  intros Hhi Hlo Hall Ht.
  induction Hall as [| r rs Hr _ IH]; simpl;
    unfold add64; rewrite wrap64_small by (unfold in_int64; lia).
  - destruct (Z.leb_spec (last + 1) (sub64 t e)); [reflexivity | lia].
  - destruct (Z.leb_spec (last + 1) (sub64 r e)); [lia | exact IH].
Qed.

(** The call made when the sequence field is exhausted and the clock is
    still within the recorded tick: it waits out the [stalled] readings,
    leaves the spin-wait at [t1], and issues the tick of the next reading
    [t2] with sequence 0. *)
Lemma NextVal_rollover g t stalled t1 t2 rest :
  wf g -> seq g = 2 ^ 15 - 1 ->
  sub64 t (baseEpoch g) <= lastMs g ->
  Forall (fun r => sub64 r (baseEpoch g) <= lastMs g) stalled ->
  lastMs g < sub64 t1 (baseEpoch g) ->
  NextVal g (t :: stalled ++ t1 :: t2 :: rest)
  = Some ((pack (sub64 t2 (baseEpoch g)) (shard g) 0,
           mkGenerator (sub64 t2 (baseEpoch g)) 0 (shard g) (baseEpoch g)),
          rest).
Proof.
  intros Hwf Hseq Ht Hstalled Ht1.
  pose proof (incr16_wf g Hwf) as Hinc. destruct Hwf as [Hl _ _].
  unfold NextVal, bind, nowFunc, ret. cbv zeta.
  rewrite Z.max_r by assumption. rewrite Z.eqb_refl, Hinc, Hseq.
  change (2 ^ 15 <=? 2 ^ 15 - 1 + 1) with true. cbv beta iota.
  rewrite spin_returns by (assumption || lia). reflexivity.
Qed.

(** The call made when the clock is within the recorded tick and the
    sequence field has room. *)
Lemma NextVal_same_tick g t rest :
  sub64 t (baseEpoch g) <= lastMs g -> incr16 (seq g) < 2 ^ 15 ->
  NextVal g (t :: rest)
  = Some ((pack (lastMs g) (shard g) (incr16 (seq g)),
           mkGenerator (lastMs g) (incr16 (seq g)) (shard g) (baseEpoch g)),
          rest).
Proof.
  intros Ht Hroom. unfold NextVal, bind, nowFunc, ret. cbv zeta.
  rewrite Z.max_r by assumption. rewrite Z.eqb_refl.
  destruct (Z.leb_spec (2 ^ 15) (incr16 (seq g))); [lia | reflexivity].
Qed.

(** The call made when the clock is past the recorded tick. *)
Lemma NextVal_advanced g t rest :
  lastMs g < sub64 t (baseEpoch g) ->
  NextVal g (t :: rest)
  = Some ((pack (sub64 t (baseEpoch g)) (shard g) 0,
           mkGenerator (sub64 t (baseEpoch g)) 0 (shard g) (baseEpoch g)),
          rest).
Proof.
  intros Ht. unfold NextVal, bind, nowFunc, ret. cbv zeta.
  rewrite Z.max_l by lia.
  destruct (Z.eqb_spec (sub64 t (baseEpoch g)) (lastMs g)); [lia | reflexivity].
Qed.


(** Calls made while the clock stays within the recorded tick and the
    sequence field has room only count the sequence up. *)
Lemma issueVal_same_tick k :
  forall g t rest,
    wf g -> sub64 t (baseEpoch g) <= lastMs g ->
    seq g + Z.of_nat k < 2 ^ 15 ->
    exists vals,
      issueVal k g (frozen k t ++ rest)
      = Some ((vals, mkGenerator (lastMs g) (seq g + Z.of_nat k)
                                 (shard g) (baseEpoch g)), rest) /\
      Forall (fun v => fields v = (lastMs g, seq_of v)) vals /\
      List.length vals = k.
Proof.
  induction k as [| k IH]; intros g t rest Hwf Ht Hroom.
  - exists []. destruct g; simpl. rewrite Z.add_0_r. repeat constructor.
  - rewrite Nat2Z.inj_succ in Hroom.
    pose proof (incr16_wf g Hwf) as Hinc.
    assert (Hwf' := Hwf). destruct Hwf' as [Hl Hs Hsh].
    set (g1 := mkGenerator (lastMs g) (seq g + 1) (shard g) (baseEpoch g)).
    assert (Hstep : NextVal g (t :: frozen k t ++ rest)
                    = Some ((pack (lastMs g) (shard g) (seq g + 1), g1),
                            frozen k t ++ rest)).
    { unfold NextVal, bind, nowFunc, ret. cbv zeta.
      rewrite Z.max_r by assumption. rewrite Z.eqb_refl, Hinc.
      destruct (Z.leb_spec (2 ^ 15) (seq g + 1)); [lia | reflexivity]. }
    destruct (IH g1 t rest) as (vs & Hvs & Hall & Hlen).
    + constructor; simpl; lia.
    + exact Ht.
    + simpl; lia.
    + exists (pack (lastMs g) (shard g) (seq g + 1) :: vs).
      change (frozen (S k) t ++ rest) with (t :: frozen k t ++ rest).
      cbn [issueVal]. unfold bind at 1. rewrite Hstep.
      cbn [snd fst]. unfold bind at 1. rewrite Hvs. unfold ret; simpl.
      replace (seq g + Z.pos (Pos.of_succ_nat k))
        with (seq g + 1 + Z.of_nat k) by (rewrite Zpos_P_of_succ_nat; lia).
      split; [reflexivity |]. split; [| now rewrite Hlen].
      constructor; [| exact Hall].
      unfold fields. now rewrite tick_of_pack by lia.
Qed.

(** On the sequence-exhaustion path the identifier carries sequence 0
    and the tick of the reading taken after the spin-wait, whether or not
    that reading is above the tick that was waited out. *)
Lemma NextVal_rollover_fields g t stalled t1 t2 rest :
  wf g -> seq g = 2 ^ 15 - 1 ->
  sub64 t (baseEpoch g) <= lastMs g ->
  Forall (fun r => sub64 r (baseEpoch g) <= lastMs g) stalled ->
  lastMs g < sub64 t1 (baseEpoch g) ->
  0 <= sub64 t2 (baseEpoch g) < 2 ^ 39 ->
  exists v g',
    NextVal g (t :: stalled ++ t1 :: t2 :: rest) = Some ((v, g'), rest) /\
    fields v = (sub64 t2 (baseEpoch g), 0) /\
    key g' = (sub64 t2 (baseEpoch g), 0).
Proof.
  intros Hwf Hseq Ht Hstalled Ht1 Ht2.
  do 2 eexists. split; [now apply NextVal_rollover |].
  destruct Hwf as [_ _ Hsh]. unfold fields.
  rewrite tick_of_pack, seq_of_pack by lia. split; reflexivity.
Qed.

(** A [regressed] call is one that returns and leaves the recorded tick
    where it was or lower, with the sequence back at 0. *)
Lemma regressed_NextVal g clk :
  regressed g clk = true ->
  exists v g' clk',
    NextVal g clk = Some ((v, g'), clk') /\
    lastMs g' <= lastMs g /\ seq g' = 0.
Proof.
  unfold regressed, NextVal, bind, nowFunc, ret.
  destruct clk as [| t clk1]; [discriminate |]. cbv zeta.
  destruct (Z.max (sub64 t (baseEpoch g)) (lastMs g) =? lastMs g);
    [| discriminate].
  destruct (2 ^ 15 <=? incr16 (seq g)); [| discriminate].
  cbn [andb].
  destruct (spinUntilNextMs _ _ clk1) as [[[] [| t2 clk3]] |];
    try discriminate.
  intros Hle. apply Z.leb_le in Hle.
  do 3 eexists. split; [reflexivity |]. split; [exact Hle | reflexivity].
Qed.

(** C3 at a clock that falls back right after the spin-wait.  Shard 1,
    epoch 1000: 32768 identifiers are issued within tick 5; the next call
    reads 1005 (same tick), spins over 1005, leaves the spin-wait at 1006
    and then reads 1003.  The identifier it issues has sequence 0 but
    tick 3, below the previous tick 5: the value read on line 155 is
    recorded without the [max] of line 148. *)
Theorem C3_rollover_tick_regresses :
  let g0 := mkGenerator 0 0 1 1000 in
  let g := mkGenerator 5 32767 1 1000 in
  New bareDeps (Some (mkConfig 1 1000)) = Ok g0 /\
  (exists vals,
      issueVal (Z.to_nat 32768) g0 (frozen (Z.to_nat 32768) 1005)
      = Some ((vals, g), []) /\
      List.length vals = Z.to_nat 32768 /\
      Forall (fun v => tick_of v = 5) vals) /\
  spinUntilNextMs 1000 5 [1005] = None /\
  NextVal g [1005; 1005; 1006; 1003]
  = Some ((pack 3 1 0, mkGenerator 3 0 1 1000), []) /\
  fields (pack 3 1 0) = (3, 0).
Proof.
  cbv zeta. split; [reflexivity |].
  split; [| repeat split; reflexivity].
  set (g1 := mkGenerator 5 0 1 1000).
  assert (Hwf : wf g1) by (constructor; simpl; lia).
  destruct (issueVal_same_tick (Z.to_nat 32767) g1 1005 [] Hwf)
    as (vs & Hvs & Hall & Hlen).
  { vm_compute; discriminate. }
  { rewrite Z2Nat.id by lia. simpl; lia. }
  rewrite app_nil_r, Z2Nat.id in Hvs by lia.
  replace (Z.to_nat 32768) with (S (Z.to_nat 32767)) by lia.
  exists (pack 5 1 0 :: vs).
  change (frozen (S (Z.to_nat 32767)) 1005)
    with (1005 :: frozen (Z.to_nat 32767) 1005).
  cbn [issueVal]. unfold bind at 1.
  change (NextVal (mkGenerator 0 0 1 1000)
                  (1005 :: frozen (Z.to_nat 32767) 1005))
    with (Some ((pack 5 1 0, g1), frozen (Z.to_nat 32767) 1005)).
  cbn [fst snd]. unfold bind at 1. rewrite Hvs. unfold ret.
  split; [reflexivity |]. split; [cbn [List.length]; now rewrite Hlen |].
  constructor; [reflexivity |].
  eapply Forall_impl; [| exact Hall].
  intros v Hv. now injection Hv.
Qed.

(** ** Shard resolution *)

(** The hash agrees with the published FNV-1a test vectors. *)
Example fnv32a_empty : fnv32a [] = 0x811c9dc5.
Proof. reflexivity. Qed.

Example fnv32a_a : fnv32a (list_byte_of_string "a") = 0xe40c292c.
Proof. reflexivity. Qed.

Example fnv32a_foobar : fnv32a (list_byte_of_string "foobar") = 0xbf9cf968.
Proof. reflexivity. Qed.

Lemma firstHardwareAddr_skipped ifs :
  Forall skipped ifs -> firstHardwareAddr ifs = None.
Proof.
  induction 1 as [| i rest Hi _ IH]; simpl; [reflexivity |].
  destruct Hi as [Hloop | Hmac].
  - destruct (Z.eqb_spec (Z.land (Flags i) FlagLoopback) 0); [contradiction |].
    exact IH.
  - rewrite Hmac; simpl. rewrite orb_true_r. exact IH.
Qed.

Lemma land1023_range x : 0 <= Z.land x 1023 < 2 ^ 10.
Proof.
  change 1023 with (Z.ones 10). rewrite Z.land_ones by lia.
  apply Z.mod_pos_bound; lia.
Qed.

Lemma uint16_land1023 x : uint16 (Z.land x 1023) = Z.land x 1023.
Proof. apply uint16_small. pose proof (land1023_range x). lia. Qed.

Lemma byteZ_range b : 0 <= byteZ b < 2 ^ 8.
Proof.
  unfold byteZ. pose proof (Byte.to_N_bounded b) as H.
  change (2 ^ 8) with 256. lia.
Qed.

Lemma bigEndianUint16_sum b :
  bigEndianUint16 b = byteZ (fst b) * 256 + byteZ (snd b).
Proof.
  unfold bigEndianUint16. rewrite Z.shiftl_mul_pow2 by lia.
  apply (lor_shifted_low _ _ 8); [lia | apply byteZ_range].
Qed.

Lemma autoShardWithDeps_range d s :
  autoShardWithDeps d = Ok s -> 0 <= s < 2 ^ 10.
Proof.
  unfold autoShardWithDeps.
  destruct (firstHardwareAddr _).
  - intros [= <-]. rewrite uint16_land1023. apply land1023_range.
  - destruct (hostFunc d) as [hn [e |]].
    + destruct (randFunc d _) as [b [e' |]]; [discriminate |].
      intros [= <-]. apply land1023_range.
    + intros [= <-]. rewrite uint16_land1023. apply land1023_range.
Qed.

(** C4.  When no interface qualifies (enumeration failed or every
    interface is loopback or without hardware address): if the host name
    is available the shard is FNV-1a-32 of its bytes masked with 0x3FF;
    if it is not and the randomness source fills the buffer, the shard is
    the big-endian 16-bit value of the two bytes masked with 0x3FF; if
    that fails too, resolution returns an error. *)
Theorem C4_auto_shard_fallback d :
  Forall skipped (fst (ifacesFunc d)) ->
  (forall hn,
      hostFunc d = (hn, None) ->
      autoShardWithDeps d
      = Ok (Z.land (fnv32a (list_byte_of_string hn)) 1023)) /\
  (forall hn e b,
      hostFunc d = (hn, Some e) ->
      randFunc d (x00, x00) = (b, None) ->
      autoShardWithDeps d
      = Ok (Z.land (byteZ (fst b) * 256 + byteZ (snd b)) 1023)) /\
  (forall hn e b e',
      hostFunc d = (hn, Some e) ->
      randFunc d (x00, x00) = (b, Some e') ->
      autoShardWithDeps d = Err NoSignalAvailable).
Proof.
  intros Hifs. apply firstHardwareAddr_skipped in Hifs.
  unfold autoShardWithDeps. rewrite Hifs.
  repeat split.
  - intros hn ->. now rewrite uint16_land1023.
  - intros hn e b -> ->. now rewrite bigEndianUint16_sum.
  - intros hn e b e' -> ->. reflexivity.
Qed.

Lemma C4_auto_shard_fallback_witness :
  autoShardWithDeps hostOnlyDeps = Ok 842 /\
  autoShardWithDeps randOnlyDeps = Ok 973 /\
  autoShardWithDeps bareDeps = Err NoSignalAvailable.
Proof.
  split; [| split].
  - apply (proj1 (C4_auto_shard_fallback hostOnlyDeps
                    ltac:(repeat constructor; simpl; auto; lia))
                 "test-host"%string eq_refl).
  - apply (proj1 (proj2 (C4_auto_shard_fallback randOnlyDeps
                           ltac:(constructor)))
                 ""%string "host error"%string (xab, xcd) eq_refl eq_refl).
  - apply (proj2 (proj2 (C4_auto_shard_fallback bareDeps
                           ltac:(constructor)))
                 ""%string "host error"%string (x00, x00)
                 "rand error"%string eq_refl eq_refl).
Defined.

(** ** Construction and the first calls *)

Lemma New_wf d cfg g : New d cfg = Ok g -> wf g.
Proof.
  unfold New, NewWith. cbv zeta.
  set (c := match cfg with Some c => c | None => _ end).
  destruct (Z.leb_spec 0 (ShardID c)) as [Hnn | Hneg].
  - destruct (Z.ltb_spec 1023 (ShardID c)) as [Hbig | Hok]; [discriminate |].
    intros [= <-]. constructor; simpl; try lia.
    rewrite uint16_small; lia.
  - destruct (autoShardWithDeps d) as [s | e] eqn:Hs; [| discriminate].
    intros [= <-]. constructor; simpl; try lia.
    eapply autoShardWithDeps_range; eauto.
Qed.


Lemma encode_last val :
  encode val
  = (encode_loop 10 (Z.shiftr val 6) ""
       ++ String (alphabet_at (Z.land val 63)) "")%string.
Proof.
  exact (encode_loop_out 10 (Z.shiftr val 6)
                         (String (alphabet_at (Z.land val 63)) "")).
Qed.




(** C6.  Whatever the environment and the epoch, construction with the
    explicit shard 1024 returns the invalid-shard error and no generator,
    and construction with shard 1023 returns a generator whose shard is
    1023. *)
Theorem C6_explicit_shard_bounds d epoch :
  New d (Some (mkConfig 1024 epoch)) = Err InvalidShard /\
  exists g, New d (Some (mkConfig 1023 epoch)) = Ok g /\ shard g = 1023.
Proof.
  split; [reflexivity |].
  eexists; split; reflexivity.
Qed.

(** C9.  A negative [ShardID], whichever it is, sends construction to
    [autoShardWithDeps] and its outcome is returned as it is, never as the
    invalid-shard error; construction returns the invalid-shard error
    exactly for a [ShardID] above 1023. *)
Theorem C9_negative_shard_is_auto d cfg :
  (ShardID cfg < 0 ->
   New d (Some cfg) <> Err InvalidShard /\
   New d (Some cfg) =
   match autoShardWithDeps d with
   | Ok s => Ok (mkGenerator 0 0 s (if CustomEpochMs cfg =? 0
                                    then defaultEpochMs
                                    else CustomEpochMs cfg))
   | Err e => Err e
   end) /\
  (New d (Some cfg) = Err InvalidShard <-> 1023 < ShardID cfg) /\
  New d None <> Err InvalidShard.
Proof.
  assert (Hauto : forall A (k : Z -> result A),
             match autoShardWithDeps d with
             | Ok s => k s | Err e => Err e end <> Err InvalidShard \/
             exists s, autoShardWithDeps d = Ok s).
  { intros A k. unfold autoShardWithDeps.
    destruct (firstHardwareAddr _); [right; eauto |].
    destruct (hostFunc d) as [hn [e |]]; [| right; eauto].
    destruct (randFunc d _) as [b [e' |]]; [| right; eauto].
    left; discriminate. }
  assert (Hnever : forall epoch,
             match autoShardWithDeps d with
             | Ok s => Ok (mkGenerator 0 0 s epoch)
             | Err e => Err e
             end <> Err InvalidShard).
  { intros epoch.
    destruct (Hauto _ (fun s => Ok (mkGenerator 0 0 s epoch)))
      as [H | [s H]]; [exact H | rewrite H; discriminate]. }
  unfold New, NewWith. cbv zeta. repeat split.
  - destruct (Z.leb_spec 0 (ShardID cfg)); [lia | apply Hnever].
  - destruct (Z.leb_spec 0 (ShardID cfg)); [lia |].
    destruct (autoShardWithDeps d); reflexivity.
  - destruct (Z.leb_spec 0 (ShardID cfg)).
    + destruct (Z.ltb_spec 1023 (ShardID cfg)); [trivial | discriminate].
    + intros H'. now apply Hnever in H'.
  - intros Hbig.
    destruct (Z.leb_spec 0 (ShardID cfg)); [| lia].
    destruct (Z.ltb_spec 1023 (ShardID cfg)); [reflexivity | lia].
  - cbn [ShardID CustomEpochMs].
    change (0 <=? -1) with false. cbv iota. apply Hnever.
Qed.

(** C9 at [ShardID = -5] in an environment where only the host name
    answers: the shard is the one resolved from the host name. *)
Lemma C9_negative_shard_is_auto_witness :
  New hostOnlyDeps (Some (mkConfig (-5) 0)) <> Err InvalidShard /\
  New hostOnlyDeps (Some (mkConfig (-5) 0))
  = Ok (mkGenerator 0 0 842 defaultEpochMs).
Proof.
  exact (proj1 (C9_negative_shard_is_auto hostOnlyDeps (mkConfig (-5) 0))
               ltac:(simpl; lia)).
Defined.

(** C7.  Every identifier [Next] returns has exactly 11 characters, all
    of them characters of the alphabet, which is the 64 symbols
    [A-Z], [a-z], [0-9], [-], [_] in this order, ['A'] at index 0 and
    ['_'] at index 63. *)
Theorem C7_next_length_and_alphabet g clk id g' clk' :
  Next g clk = Some ((id, g'), clk') ->
  String.length id = 11%nat /\
  all_chars (fun c => occurs c alphabet) id /\
  alphabet = ("ABCDEFGHIJKLMNOPQRSTUVWXYZ" ++ "abcdefghijklmnopqrstuvwxyz"
              ++ "0123456789" ++ "-_")%string /\
  String.length alphabet = 64%nat /\
  String.get 0 alphabet = Some "A"%char /\
  String.get 63 alphabet = Some "_"%char.
Proof.
  unfold Next, bind, ret. intros H.
  destruct (NextVal g clk) as [[[v g1] clk1] |]; [| discriminate].
  injection H as <- _ _. cbn [fst].
  split; [apply encode_length |].
  split; [apply encode_alphabet |].
  repeat split; reflexivity.
Qed.

Lemma C7_next_length_and_alphabet_witness :
  String.length "AAAAAAKAIAA" = 11%nat /\
  all_chars (fun c => occurs c alphabet) "AAAAAAKAIAA".
Proof.
  destruct (C7_next_length_and_alphabet
              (mkGenerator 0 0 1 1000) [1005] "AAAAAAKAIAA"
              (mkGenerator 5 0 1 1000) [] eq_refl) as (Hlen & Hall & _).
  split; [exact Hlen | exact Hall].
Defined.

(** C10.  On a generator fresh from [New], a first call that observes a
    tick at or below 0 takes the same-millisecond branch (the recorded
    tick starts at 0): the identifier carries tick 0 and sequence 1, and
    the state afterwards is tick 0, sequence 1. *)
Theorem C10_first_call_at_or_before_epoch d cfg g t clk :
  New d cfg = Ok g ->
  sub64 t (baseEpoch g) <= 0 ->
  let val := pack 0 (shard g) 1 in
  NextVal g (t :: clk)
  = Some ((val, mkGenerator 0 1 (shard g) (baseEpoch g)), clk) /\
  Next g (t :: clk)
  = Some ((encode val, mkGenerator 0 1 (shard g) (baseEpoch g)), clk) /\
  tick_of val = 0 /\ seq_of val = 1 /\ shard_of val = shard g.
Proof.
  intros Hnew Ht. cbv zeta.
  pose proof (New_wf _ _ _ Hnew) as [_ _ Hsh].
  assert (Hfresh : lastMs g = 0 /\ seq g = 0).
  { revert Hnew. unfold New, NewWith. cbv zeta.
    destruct (0 <=? _); [destruct (1023 <? _) |
                         destruct (autoShardWithDeps d)];
      try discriminate; intros [= <-]; split; reflexivity. }
  destruct Hfresh as [Hl Hs].
  assert (Hstep : NextVal g (t :: clk)
                  = Some ((pack 0 (shard g) 1,
                           mkGenerator 0 1 (shard g) (baseEpoch g)), clk)).
  { rewrite NextVal_same_tick; rewrite ?Hl, ?Hs;
      [reflexivity | assumption | vm_compute; reflexivity]. }
  split; [exact Hstep |].
  split; [unfold Next, bind, ret; now rewrite Hstep |].
  rewrite tick_of_pack, seq_of_pack, shard_of_pack by lia.
  repeat split; reflexivity.
Qed.

(** C10 with the clock five milliseconds before the default epoch. *)
Lemma C10_first_call_at_or_before_epoch_witness :
  Next (mkGenerator 0 0 1 defaultEpochMs) [1577836799995; 1577836800000]
  = Some (("AAAAAAAAIAB", mkGenerator 0 1 1 defaultEpochMs),
          [1577836800000]) /\
  fields (decode "AAAAAAAAIAB") = (0, 1).
Proof.
  destruct (C10_first_call_at_or_before_epoch
              bareDeps (Some (mkConfig 1 0))
              (mkGenerator 0 0 1 defaultEpochMs)
              1577836799995 [1577836800000] eq_refl
              ltac:(vm_compute; discriminate)) as (_ & Hnext & _).
  split; [exact Hnext | reflexivity].
Defined.

(** ** The package-level default generator *)

Lemma onceDo_done newFunc p : defaultGenOnce (onceDo newFunc p) = true.
Proof.
  unfold onceDo. destruct (defaultGenOnce p) eqn:E; [exact E |].
  destruct (newFunc None); reflexivity.
Qed.

Lemma onceDo_idle newFunc p : defaultGenOnce p = true -> onceDo newFunc p = p.
Proof. unfold onceDo. now intros ->. Qed.

(** C8.  Calls of [Gen] without configuration, made one after another:
    (1) every such call leaves the once-flag set, and a call with a
    configuration leaves the package untouched, so the flag is never
    cleared; (2) once the flag is set, the call does not depend on
    [newFunc] at all: the default generator is constructed at most once;
    (3) if that one construction fails with [e], the first call returns
    [e] without reading the clock and leaves [e] cached; (4) from then on
    every call without configuration returns the same [e] and changes
    nothing, whatever [newFunc] would return if it were asked again. *)
Theorem C8_default_generator_once :
  (forall newFunc cfgs p clk r p' clk',
      Gen newFunc cfgs p clk = Some ((r, p'), clk') ->
      match cfgs with
      | [] => defaultGenOnce p' = true
      | _ :: _ => p' = p
      end) /\
  (forall newFunc1 newFunc2 p clk,
      defaultGenOnce p = true ->
      Gen newFunc1 [] p clk = Gen newFunc2 [] p clk) /\
  (forall newFunc e clk,
      newFunc None = Err e ->
      Gen newFunc [] initialPackage clk
      = Some ((("", Some e), failedPackage e), clk)) /\
  (forall newFunc e clk,
      Gen newFunc [] (failedPackage e) clk
      = Some ((("", Some e), failedPackage e), clk)).
Proof.
  split; [| split; [| split]].
  - intros newFunc cfgs p clk r p' clk' H.
    destruct cfgs as [| cfg rest]; unfold Gen in H.
    + pose proof (onceDo_done newFunc p) as Hdone.
      destruct (defaultGenErr (onceDo newFunc p)) as [e |].
      * injection H as _ <- _. exact Hdone.
      * destruct (defaultGen (onceDo newFunc p)) as [g |]; [| discriminate].
        unfold bind, ret in H.
        destruct (Next g clk) as [[[id g1] clk1] |]; [| discriminate].
        injection H as _ <- _. exact Hdone.
    + destruct (newFunc cfg) as [g | e].
      * unfold bind, ret in H.
        destruct (Next g clk) as [[[id g1] clk1] |]; [| discriminate].
        now injection H as _ <- _.
      * now injection H as _ <- _.
  - intros newFunc1 newFunc2 p clk Hdone. unfold Gen.
    now rewrite !onceDo_idle by assumption.
  - intros newFunc e clk Hfail. unfold Gen, onceDo, initialPackage.
    cbn [defaultGenOnce]. rewrite Hfail. reflexivity.
  - intros newFunc e clk. reflexivity.
Qed.

(** C8 on three calls: construction fails at the first; at the second
    and third [newFunc] is [New] in an environment where it would
    succeed, and the cached error is returned all the same. *)
Lemma C8_default_generator_once_witness :
  let e := NoSignalAvailable in
  Gen (New bareDeps) [] initialPackage [1005]
  = Some ((("", Some e), failedPackage e), [1005]) /\
  Gen (New hostOnlyDeps) [] (failedPackage e) [1005]
  = Some ((("", Some e), failedPackage e), [1005]) /\
  Gen (New hostOnlyDeps) [] (failedPackage e) [1005]
  = Gen (New bareDeps) [] (failedPackage e) [1005] /\
  defaultGenOnce (failedPackage e) = true.
Proof.
  destruct C8_default_generator_once as (Hflag & Hsame & Hfirst & Hlater).
  cbv zeta. split; [| split; [| split]].
  - apply Hfirst. reflexivity.
  - apply Hlater.
  - apply Hsame. reflexivity.
  - apply (Hflag (New bareDeps) [] initialPackage [1005]
                 ("", Some NoSignalAvailable) _ [1005]).
    apply Hfirst. reflexivity.
Defined.

(** * Further properties of the code *)

(** ** The packed value outside the layout *)

Lemma shl64_uint64_25 t : shl64 (uint64 t) 25 = (t mod 2 ^ 39) * 2 ^ 25.
Proof.
  unfold shl64, uint64. rewrite Z.shiftl_mul_pow2 by lia.
  change (2 ^ 64) with (2 ^ 39 * 2 ^ 25).
  rewrite Z.mul_mod_distr_r by lia. f_equal.
  apply Z.mod_mod_divide. exists (2 ^ 25). reflexivity.
Qed.

(** Only the low 39 bits of the tick reach the packed value. *)
Lemma pack_wrap t sh s : pack t sh s = pack (t mod 2 ^ 39) sh s.
Proof.
  unfold pack. rewrite !shl64_uint64_25.
  now rewrite Z.mod_mod by lia.
Qed.

Lemma incr16_range s : 0 <= incr16 s < 2 ^ 16.
Proof. unfold incr16, uint16. apply Z.mod_pos_bound; lia. Qed.

(** Whatever the state and the clock, a call that returns has packed
    the state it leaves behind, has kept shard and epoch, and leaves the
    sequence inside its field. *)
Lemma NextVal_packs_state g clk v g' clk' :
  NextVal g clk = Some ((v, g'), clk') ->
  v = pack (lastMs g') (shard g) (seq g') /\
  shard g' = shard g /\ baseEpoch g' = baseEpoch g /\
  0 <= seq g' < 2 ^ 15.
Proof.
  unfold NextVal, bind, nowFunc, ret.
  destruct clk as [| t clk1]; [discriminate |]. cbv zeta.
  pose proof (incr16_range (seq g)) as Hr.
  destruct (Z.eqb_spec (Z.max (sub64 t (baseEpoch g)) (lastMs g)) (lastMs g))
    as [Hsame | Hadv].
  - destruct (Z.leb_spec (2 ^ 15) (incr16 (seq g))) as [Hfull | Hroom].
    + destruct (spinUntilNextMs _ _ clk1) as [[[] [| t2 clk3]] |];
        try discriminate.
      intros [= <- <- <-]. simpl. repeat split; lia.
    + intros [= <- <- <-]. simpl. rewrite Hsame. repeat split; lia.
  - intros [= <- <- <-]. simpl. repeat split; lia.
Qed.

Lemma Next_decoded g clk id g' clk' :
  0 <= shard g < 2 ^ 10 ->
  Next g clk = Some ((id, g'), clk') ->
  tick_of (decode id) = lastMs g' mod 2 ^ 39 /\
  shard_of (decode id) = shard g /\
  seq_of (decode id) = seq g'.
Proof.
  intros Hsh. unfold Next, bind, ret.
  destruct (NextVal g clk) as [[[v g1] clk1] |] eqn:Hv; [| discriminate].
  intros [= <- <- <-]. cbn [fst snd].
  destruct (NextVal_packs_state _ _ _ _ _ Hv) as (-> & _ & _ & Hs).
  pose proof (Z.mod_pos_bound (lastMs g1) (2 ^ 39) ltac:(lia)) as Ht.
  rewrite pack_wrap.
  rewrite decode_encode by (apply pack_range; lia).
  now rewrite tick_of_pack, shard_of_pack, seq_of_pack by lia.
Qed.

(** X1.  Shard round trip: the shard field read back from any identifier
    [Next] returns is the generator's shard, for every clock and every
    state of the generator, ticks outside the 39-bit field included. *)
Theorem X1_shard_round_trip g clk id g' clk' :
  0 <= shard g < 2 ^ 10 ->
  Next g clk = Some ((id, g'), clk') ->
  shard_of (decode id) = shard g.
Proof. intros Hsh H. now destruct (Next_decoded _ _ _ _ _ Hsh H) as (_ & ? & _). Qed.

Lemma X1_shard_round_trip_witness :
  shard_of (decode "AAAAAAB_4AA") = 1023.
Proof.
  exact (X1_shard_round_trip (mkGenerator 0 0 1023 1000) [1000 + 2 ^ 39]
           "AAAAAAB_4AA" (mkGenerator (2 ^ 39) 0 1023 1000) []
           ltac:(simpl; lia) eq_refl).
Defined.

(** X2.  The identifier mirrors the state the call leaves: its sequence
    field is the recorded sequence and its tick field is the recorded
    tick reduced modulo 2^39. *)
Theorem X2_identifier_mirrors_state g clk id g' clk' :
  0 <= shard g < 2 ^ 10 ->
  Next g clk = Some ((id, g'), clk') ->
  fields (decode id) = (lastMs g' mod 2 ^ 39, seq g').
Proof.
  intros Hsh H. destruct (Next_decoded _ _ _ _ _ Hsh H) as (Ht & _ & Hs).
  unfold fields. now rewrite Ht, Hs.
Qed.

Lemma X2_identifier_mirrors_state_witness :
  fields (decode "AAAAAAGAIAA") = (3, 0).
Proof.
  exact (X2_identifier_mirrors_state (mkGenerator 0 0 1 1000)
           [1003 + 2 ^ 39] "AAAAAAGAIAA"
           (mkGenerator (2 ^ 39 + 3) 0 1 1000) []
           ltac:(simpl; lia) eq_refl).
Defined.

(** X3.  What a call never touches: from any state and on any clock,
    [Next] leaves shard and epoch as they were and the sequence within
    0..32767. *)
Theorem X3_call_keeps_shard_and_epoch g clk id g' clk' :
  Next g clk = Some ((id, g'), clk') ->
  shard g' = shard g /\ baseEpoch g' = baseEpoch g /\ 0 <= seq g' <= 32767.
Proof.
  unfold Next, bind, ret.
  destruct (NextVal g clk) as [[[v g1] clk1] |] eqn:Hv; [| discriminate].
  intros [= <- <- <-]. cbn [snd].
  destruct (NextVal_packs_state _ _ _ _ _ Hv) as (_ & ? & ? & ?).
  repeat split; lia.
Qed.

Lemma X3_call_keeps_shard_and_epoch_witness :
  let g' := mkGenerator 5 0 7 1000 in
  shard g' = 7 /\ baseEpoch g' = 1000 /\ 0 <= seq g' <= 32767.
Proof.
  exact (X3_call_keeps_shard_and_epoch (mkGenerator 0 40000 7 1000) [1005]
           "AAAAAAKA4AA" (mkGenerator 5 0 7 1000) [] eq_refl).
Defined.

(** X4.  Identifiers of generators with different shards are different,
    whatever their clocks and states. *)
Theorem X4_distinct_shards_distinct_ids g1 clk1 id1 g1' clk1'
        g2 clk2 id2 g2' clk2' :
  0 <= shard g1 < 2 ^ 10 -> 0 <= shard g2 < 2 ^ 10 ->
  shard g1 <> shard g2 ->
  Next g1 clk1 = Some ((id1, g1'), clk1') ->
  Next g2 clk2 = Some ((id2, g2'), clk2') ->
  id1 <> id2.
Proof.
  intros H1 H2 Hne N1 N2 E.
  destruct (Next_decoded _ _ _ _ _ H1 N1) as (_ & S1 & _).
  destruct (Next_decoded _ _ _ _ _ H2 N2) as (_ & S2 & _).
  apply Hne. rewrite <- S1, <- S2, E. reflexivity.
Qed.

Lemma X4_distinct_shards_distinct_ids_witness :
  "AAAAAAKAIAA" <> "AAAAAAKAQAA".
Proof.
  exact (X4_distinct_shards_distinct_ids
           (mkGenerator 0 0 1 1000) [1005] "AAAAAAKAIAA"
           (mkGenerator 5 0 1 1000) []
           (mkGenerator 0 0 2 1000) [1005] "AAAAAAKAQAA"
           (mkGenerator 5 0 2 1000) []
           ltac:(simpl; lia) ltac:(simpl; lia) ltac:(simpl; lia)
           eq_refl eq_refl).
Defined.

(** ** Construction *)

Lemma New_fresh d cfg g :
  New d cfg = Ok g -> lastMs g = 0 /\ seq g = 0.
Proof.
  unfold New, NewWith. cbv zeta.
  destruct (0 <=? _); [destruct (1023 <? _) | destruct (autoShardWithDeps d)];
    try discriminate; intros [= <-]; split; reflexivity.
Qed.

(** X5.  A generator fresh from [New] has recorded tick 0 and sequence
    0, a shard within 0..1023, and an epoch that is never 0: the
    configured one when it is not 0, 1577836800000 otherwise (a nil
    configuration included). *)
Theorem X5_new_generator_is_fresh d cfg g :
  New d cfg = Ok g ->
  lastMs g = 0 /\ seq g = 0 /\ 0 <= shard g <= 1023 /\
  baseEpoch g <> 0 /\
  baseEpoch g = match cfg with
                | Some c => if CustomEpochMs c =? 0 then 1577836800000
                            else CustomEpochMs c
                | None => 1577836800000
                end.
Proof.
  intros H. destruct (New_fresh _ _ _ H) as [Hl Hs].
  destruct (New_wf _ _ _ H) as [_ _ Hsh].
  assert (He : baseEpoch g = match cfg with
                             | Some c => if CustomEpochMs c =? 0
                                         then 1577836800000
                                         else CustomEpochMs c
                             | None => 1577836800000
                             end).
  { revert H. unfold New, NewWith. cbv zeta.
    destruct cfg as [c |]; cbn [ShardID CustomEpochMs];
      (destruct (0 <=? _);
       [destruct (1023 <? _) | destruct (autoShardWithDeps d)];
       try discriminate; intros [= <-]; reflexivity). }
  repeat split; try assumption; try lia.
  rewrite He. destruct cfg as [c |]; [| discriminate].
  destruct (Z.eqb_spec (CustomEpochMs c) 0); [discriminate | assumption].
Qed.

Lemma X5_new_generator_is_fresh_witness :
  let g := mkGenerator 0 0 842 1577836800000 in
  lastMs g = 0 /\ seq g = 0 /\ 0 <= shard g <= 1023 /\
  baseEpoch g <> 0 /\ baseEpoch g = 1577836800000.
Proof.
  exact (X5_new_generator_is_fresh hostOnlyDeps None
           (mkGenerator 0 0 842 1577836800000) eq_refl).
Defined.

Lemma New_explicit d cfg :
  0 <= ShardID cfg <= 1023 ->
  New d (Some cfg)
  = Ok (mkGenerator 0 0 (ShardID cfg)
                    (if CustomEpochMs cfg =? 0 then defaultEpochMs
                     else CustomEpochMs cfg)).
Proof.
  intros H. unfold New, NewWith. cbv zeta.
  destruct (Z.leb_spec 0 (ShardID cfg)); [| lia].
  destruct (Z.ltb_spec 1023 (ShardID cfg)); [lia |].
  rewrite uint16_small by lia. reflexivity.
Qed.

(** X6.  With an explicit shard in 0..1023 construction succeeds in
    every environment, without consulting it: the generator has exactly
    that shard. *)
Theorem X6_explicit_shard_ignores_environment d1 d2 cfg :
  0 <= ShardID cfg <= 1023 ->
  New d1 (Some cfg) = New d2 (Some cfg) /\
  exists g, New d1 (Some cfg) = Ok g /\ shard g = ShardID cfg.
Proof.
  intros H. rewrite !New_explicit by assumption.
  split; [reflexivity |]. eexists; split; reflexivity.
Qed.

Lemma X6_explicit_shard_ignores_environment_witness :
  New bareDeps (Some (mkConfig 0 42)) = New macDeps (Some (mkConfig 0 42)) /\
  exists g, New bareDeps (Some (mkConfig 0 42)) = Ok g /\ shard g = 0.
Proof.
  exact (X6_explicit_shard_ignores_environment bareDeps macDeps
           (mkConfig 0 42) ltac:(simpl; lia)).
Defined.

(** ** Shard resolution, the interface branch *)

Lemma firstHardwareAddr_None ifs :
  firstHardwareAddr ifs = None -> Forall skipped ifs.
Proof.
  induction ifs as [| i rest IH]; simpl; [constructor |].
  destruct (Z.eqb_spec (Z.land (Flags i) FlagLoopback) 0) as [E | N]; simpl.
  - destruct (HardwareAddr i) as [| b mac] eqn:Hmac; simpl;
      [| discriminate].
    intros H. constructor; [right; assumption | now apply IH].
  - intros H. constructor; [left; assumption | now apply IH].
Qed.

Lemma firstHardwareAddr_first pre i post :
  Forall skipped pre ->
  Z.land (Flags i) FlagLoopback = 0 -> HardwareAddr i <> [] ->
  firstHardwareAddr (pre ++ i :: post) = Some (HardwareAddr i).
Proof.
  intros Hpre Hflag Hmac.
  induction Hpre as [| j pre Hj _ IH]; simpl.
  - rewrite Hflag. simpl.
    destruct (HardwareAddr i); [contradiction | reflexivity].
  - destruct Hj as [Hloop | Hnone].
    + destruct (Z.eqb_spec (Z.land (Flags j) FlagLoopback) 0);
        [contradiction | exact IH].
    + rewrite Hnone; simpl. rewrite orb_true_r. exact IH.
Qed.

(** X7.  The first interface that is neither loopback nor without
    hardware address decides the shard: FNV-1a-32 of its address masked
    with 0x3FF, whatever follows it in the list, whatever error the
    enumeration reported, and whatever the host name and the randomness
    source would answer. *)
Theorem X7_first_qualifying_interface_wins d pre i post :
  fst (ifacesFunc d) = pre ++ i :: post ->
  Forall skipped pre ->
  Z.land (Flags i) FlagLoopback = 0 -> HardwareAddr i <> [] ->
  autoShardWithDeps d = Ok (Z.land (fnv32a (HardwareAddr i)) 1023).
Proof.
  intros Hifs Hpre Hflag Hmac. unfold autoShardWithDeps.
  rewrite Hifs, (firstHardwareAddr_first _ _ _ Hpre Hflag Hmac).
  now rewrite uint16_land1023.
Qed.

Lemma X7_first_qualifying_interface_wins_witness :
  autoShardWithDeps macDeps
  = Ok (Z.land (fnv32a [x01; x02; x03; x04; x05; x06]) 1023).
Proof.
  apply (X7_first_qualifying_interface_wins macDeps
           [mkInterface 5 [xde; xad; xbe; xef]; mkInterface 1 []]
           (mkInterface 1 [x01; x02; x03; x04; x05; x06])
           [mkInterface 1 [x01; x02; x03; x04; x05; x07]]).
  - reflexivity.
  - repeat constructor; simpl; auto; lia.
  - reflexivity.
  - discriminate.
Defined.

(** X8.  A resolved shard is always within 0..1023, whichever source
    produced it. *)
Theorem X8_resolved_shard_in_range d s :
  autoShardWithDeps d = Ok s -> 0 <= s <= 1023.
Proof. intros H. apply autoShardWithDeps_range in H. lia. Qed.

Lemma X8_resolved_shard_in_range_witness : 0 <= 973 <= 1023.
Proof. exact (X8_resolved_shard_in_range randOnlyDeps 973 eq_refl). Defined.

(** X9.  Resolution fails exactly when no interface qualifies, the host
    name lookup reports an error and the randomness source reports an
    error; the error is then the one of line 210. *)
Theorem X9_resolution_fails_iff_all_fail d e :
  autoShardWithDeps d = Err e <->
  e = NoSignalAvailable /\
  Forall skipped (fst (ifacesFunc d)) /\
  snd (hostFunc d) <> None /\
  snd (randFunc d (x00, x00)) <> None.
Proof.
  unfold autoShardWithDeps. split.
  - destruct (firstHardwareAddr _) eqn:Hifs; [discriminate |].
    apply firstHardwareAddr_None in Hifs.
    destruct (hostFunc d) as [hn [eh |]]; [| discriminate].
    destruct (randFunc d _) as [b [er |]]; [| discriminate].
    intros [= <-]. repeat split; simpl; auto; discriminate.
  - intros (-> & Hifs & Hhost & Hrand).
    rewrite (firstHardwareAddr_skipped _ Hifs).
    destruct (hostFunc d) as [hn [eh |]]; [| now simpl in Hhost].
    destruct (randFunc d _) as [b [er |]]; [| now simpl in Hrand].
    reflexivity.
Qed.

Lemma X9_resolution_fails_iff_all_fail_witness :
  autoShardWithDeps bareDeps = Err NoSignalAvailable.
Proof.
  apply (proj2 (X9_resolution_fails_iff_all_fail bareDeps NoSignalAvailable)).
  repeat split; simpl; try discriminate. constructor.
Defined.

(** ** The spin-wait, exactly *)

Lemma spin_consumes e last clk rest :
  spinUntilNextMs e last clk = Some (tt, rest) ->
  (List.length rest < List.length clk)%nat.
Proof.
  induction clk as [| t clk IH]; simpl; [discriminate |].
  destruct (add64 last 1 <=? sub64 t e).
  - intros [= <-]. lia.
  - intros H. apply IH in H. lia.
Qed.

Lemma spin_inv e last clk rest :
  - 2 ^ 63 <= last < 2 ^ 63 - 1 ->
  spinUntilNextMs e last clk = Some (tt, rest) ->
  exists stalled t,
    clk = stalled ++ t :: rest /\
    Forall (fun r => sub64 r e <= last) stalled /\
    last < sub64 t e.
Proof.
  intros Hlast. revert rest.
  induction clk as [| r clk IH]; intros rest; simpl; [discriminate |].
  unfold add64. rewrite wrap64_small by (unfold in_int64; lia).
  destruct (Z.leb_spec (last + 1) (sub64 r e)) as [Hup | Hstay].
  - intros [= <-]. exists [], r. repeat split; [constructor | lia].
  - intros H. destruct (IH _ H) as (stalled & t & -> & Hall & Ht).
    exists (r :: stalled), t. repeat split; [| assumption].
    constructor; [lia | assumption].
Qed.

(** X10.  [spinUntilNextMs] returns exactly at the first reading whose
    epoch-relative tick is above [lastMs], having consumed that reading
    and every reading before it; it never returns on a reading at or below
    [lastMs]. *)
Theorem X10_spin_returns_at_first_later_tick e last clk rest :
  - 2 ^ 63 <= last < 2 ^ 63 - 1 ->
  spinUntilNextMs e last clk = Some (tt, rest) <->
  exists stalled t,
    clk = stalled ++ t :: rest /\
    Forall (fun r => sub64 r e <= last) stalled /\
    last < sub64 t e.
Proof.
  intros Hlast. split.
  - now apply spin_inv.
  - intros (stalled & t & -> & Hall & Ht).
    apply spin_returns; (assumption || lia).
Qed.

Lemma X10_spin_returns_at_first_later_tick_witness :
  spinUntilNextMs 1000 500 [1500; 1499; 1501; 1400] = Some (tt, [1400]).
Proof.
  apply (proj2 (X10_spin_returns_at_first_later_tick
                  1000 500 [1500; 1499; 1501; 1400] [1400]
                  ltac:(lia))).
  exists [1500; 1499], 1501.
  split; [reflexivity | split].
  - repeat constructor; vm_compute; discriminate.
  - reflexivity.
Defined.

(** X11.  When [lastMs] is the largest [int64] the target [lastMs + 1]
    wraps to the smallest one, and the spin-wait returns at the very first
    reading, whatever it is. *)
Theorem X11_spin_target_wraps e t rest :
  spinUntilNextMs e (2 ^ 63 - 1) (t :: rest) = Some (tt, rest).
Proof.
  cbn [spinUntilNextMs]. cbv zeta.
  assert (E : add64 (2 ^ 63 - 1) 1 = - 2 ^ 63) by reflexivity.
  rewrite E.
  pose proof (wrap64_range (t - e)) as H. unfold in_int64 in H.
  unfold sub64.
  destruct (Z.leb_spec (- 2 ^ 63) (wrap64 (t - e))); [reflexivity | lia].
Qed.

(** ** How many readings a call takes *)

(** X12.  Unless the reading is within the recorded tick and the
    incremented sequence leaves the 15-bit field, [Next] returns after
    exactly one clock reading; in that remaining case, if it returns, it
    has taken at least three. *)
Theorem X12_next_reads_clock_once_unless_exhausted g t rest :
  (~ exhausted g t ->
   exists id g', Next g (t :: rest) = Some ((id, g'), rest)) /\
  (exhausted g t ->
   forall id g' clk',
     Next g (t :: rest) = Some ((id, g'), clk') ->
     (List.length clk' + 2 <= List.length rest)%nat).
Proof.
  unfold exhausted. split.
  - intros Hne.
    destruct (Z.le_gt_cases (sub64 t (baseEpoch g)) (lastMs g)) as [Hin | Hup].
    + assert (Hroom : incr16 (seq g) < 2 ^ 15) by lia.
      unfold Next, bind, ret.
      rewrite (NextVal_same_tick _ _ _ Hin Hroom). eauto.
    + unfold Next, bind, ret.
      rewrite NextVal_advanced by lia. eauto.
  - intros [Hin Hfull] id g' clk'.
    unfold Next, NextVal, bind, nowFunc, ret. cbv zeta.
    rewrite Z.max_r by assumption. rewrite Z.eqb_refl.
    destruct (Z.leb_spec (2 ^ 15) (incr16 (seq g))); [| lia].
    destruct (spinUntilNextMs _ _ rest) as [[[] [| t2 clk3]] |] eqn:Hspin;
      try discriminate.
    intros [= _ _ <-]. apply spin_consumes in Hspin. simpl in Hspin. lia.
Qed.

Lemma X12_next_reads_clock_once_unless_exhausted_witness :
  (exists id g',
      Next (mkGenerator 5 7 1 1000) [1003; 1009]
      = Some ((id, g'), [1009])) /\
  (List.length [1008] + 2 <= List.length [1005; 1006; 1007; 1008])%nat.
Proof.
  split.
  - apply (proj1 (X12_next_reads_clock_once_unless_exhausted
                    (mkGenerator 5 7 1 1000) 1003 [1009])).
    unfold exhausted; simpl. vm_compute. intros [_ H]. now apply H.
  - apply (proj2 (X12_next_reads_clock_once_unless_exhausted
                    (mkGenerator 5 32767 1 1000) 1005
                    [1005; 1006; 1007; 1008])
                 ltac:(unfold exhausted; vm_compute; split; discriminate)
                 "AAAAAAOAIAA"%string (mkGenerator 7 0 1 1000) [1008]
                 eq_refl).
Defined.

(** ** Within one tick, and leaving it *)

Lemma issueVal_same_tick_values readings :
  forall g rest,
    0 <= seq g ->
    Forall (fun r => sub64 r (baseEpoch g) <= lastMs g) readings ->
    seq g + Z.of_nat (List.length readings) < 2 ^ 15 ->
    issueVal (List.length readings) g (readings ++ rest)
    = Some ((map (fun i => pack (lastMs g) (shard g)
                                (seq g + 1 + Z.of_nat i))
                 (List.seq 0 (List.length readings)),
             mkGenerator (lastMs g)
                         (seq g + Z.of_nat (List.length readings))
                         (shard g) (baseEpoch g)), rest).
Proof.
  induction readings as [| t readings IH]; intros g rest Hs Hall Hroom.
  - destruct g; simpl. now rewrite Z.add_0_r.
  - cbn [List.length] in *. rewrite Nat2Z.inj_succ in Hroom.
    apply Forall_cons_iff in Hall as [Ht Hall].
    assert (Hinc : incr16 (seq g) = seq g + 1)
      by (unfold incr16; apply uint16_small; lia).
    set (g1 := mkGenerator (lastMs g) (seq g + 1) (shard g) (baseEpoch g)).
    assert (Hstep : NextVal g (t :: readings ++ rest)
                    = Some ((pack (lastMs g) (shard g) (seq g + 1), g1),
                            readings ++ rest)).
    { rewrite NextVal_same_tick by (rewrite ?Hinc; lia).
      now rewrite Hinc. }
    change ((t :: readings) ++ rest) with (t :: readings ++ rest).
    rewrite (issueVal_S _ _ _ _ _ _ Hstep).
    rewrite (IH g1 rest) by (simpl; (assumption || lia)).
    cbn [lastMs seq shard baseEpoch g1].
    cbn [List.seq map]. rewrite <- seq_shift, map_map.
    rewrite (map_ext
               (fun x => pack (lastMs g) (shard g) (seq g + 1 + Z.of_nat (S x)))
               (fun i => pack (lastMs g) (shard g) (seq g + 1 + 1 + Z.of_nat i)))
      by (intros i; rewrite Nat2Z.inj_succ; f_equal; lia).
    rewrite Nat2Z.inj_succ, Nat2Z.inj_0, Z.add_0_r.
    replace (seq g + Z.succ (Z.of_nat (List.length readings)))
      with (seq g + 1 + Z.of_nat (List.length readings)) by lia.
    reflexivity.
Qed.

(** X13.  Calls made one after another on readings that are all at or
    below the recorded tick (equal to it, earlier than it, in any order),
    from a state whose sequence is not negative and for as long as the
    sequence stays below 32768: each call takes one reading, and the [k]
    calls issue the recorded tick with the sequences [seq+1 .. seq+k] in
    this order; the recorded tick does not move. *)
Theorem X13_same_tick_counts_up g readings rest :
  0 <= seq g ->
  Forall (fun r => sub64 r (baseEpoch g) <= lastMs g) readings ->
  seq g + Z.of_nat (List.length readings) < 2 ^ 15 ->
  issue (List.length readings) g (readings ++ rest)
  = Some ((map (fun i => encode (pack (lastMs g) (shard g)
                                      (seq g + 1 + Z.of_nat i)))
               (List.seq 0 (List.length readings)),
           mkGenerator (lastMs g) (seq g + Z.of_nat (List.length readings))
                       (shard g) (baseEpoch g)), rest).
Proof.
  intros Hs Hall Hroom.
  rewrite issue_issueVal, issueVal_same_tick_values by assumption.
  now rewrite map_map.
Qed.

(** X13 on the readings 1004, 1002, 1005 against the recorded tick 5. *)
Lemma X13_same_tick_counts_up_witness :
  issue 3 (mkGenerator 5 0 1 1000) [1004; 1002; 1005; 1009]
  = Some ((["AAAAAAKAIAB"; "AAAAAAKAIAC"; "AAAAAAKAIAD"],
           mkGenerator 5 3 1 1000), [1009]).
Proof.
  exact (X13_same_tick_counts_up (mkGenerator 5 0 1 1000)
           [1004; 1002; 1005] [1009]
           ltac:(simpl; lia)
           ltac:(repeat constructor; vm_compute; discriminate)
           ltac:(simpl; lia)).
Defined.



(** X15.  With the sequence field exhausted (sequence 32767) and the
    recorded tick below the largest [int64], [Next] does not return for
    as long as every reading is at or below the recorded tick. *)
Theorem X15_exhausted_call_waits g readings :
  - 2 ^ 63 <= lastMs g < 2 ^ 63 - 1 -> seq g = 32767 ->
  Forall (fun r => sub64 r (baseEpoch g) <= lastMs g) readings ->
  Next g readings = None.
Proof.
  intros Hl Hseq Hall.
  unfold Next, NextVal, bind, nowFunc, ret.
  destruct Hall as [| t stalled Ht Hstalled]; [reflexivity |]. cbv zeta.
  rewrite Z.max_r by assumption. rewrite Z.eqb_refl, Hseq.
  change (2 ^ 15 <=? incr16 32767) with true. cbv beta iota.
  rewrite spin_blocks by (assumption || lia). reflexivity.
Qed.

Lemma X15_exhausted_call_waits_witness :
  Next (mkGenerator 5 32767 1 1000) [1005; 1005; 1004; 1005] = None.
Proof.
  exact (X15_exhausted_call_waits (mkGenerator 5 32767 1 1000)
           [1005; 1005; 1004; 1005]
           ltac:(simpl; lia) eq_refl
           ltac:(repeat constructor; vm_compute; discriminate)).
Defined.

(** ** [Gen] *)

(** X16.  [Gen] with a configuration builds a new generator at every
    call, so with an explicit shard two calls that read the same clock
    value return the same identifier; neither touches the package's
    default generator. *)
Theorem X16_gen_with_config_repeats d cfg more p t clk :
  0 <= ShardID cfg <= 1023 ->
  exists id,
    Gen (New d) (Some cfg :: more) p (t :: t :: clk)
    = Some (((id, None), p), t :: clk) /\
    Gen (New d) (Some cfg :: more) p (t :: clk)
    = Some (((id, None), p), clk).
Proof.
  intros Hsh. unfold Gen. rewrite New_explicit by assumption.
  set (g := mkGenerator 0 0 (ShardID cfg) _).
  unfold Next, bind, ret.
  destruct (Z.le_gt_cases (sub64 t (baseEpoch g)) (lastMs g)) as [Hin | Hup].
  - rewrite !(NextVal_same_tick g) by (assumption || (vm_compute; reflexivity)).
    eexists; split; reflexivity.
  - rewrite !(NextVal_advanced g) by assumption.
    eexists; split; reflexivity.
Qed.

Lemma X16_gen_with_config_repeats_witness :
  exists id,
    Gen (New bareDeps) [Some (mkConfig 2 1000)] initialPackage
        [1005; 1005]
    = Some (((id, None), initialPackage), [1005]) /\
    Gen (New bareDeps) [Some (mkConfig 2 1000)] initialPackage [1005]
    = Some (((id, None), initialPackage), []).
Proof.
  exact (X16_gen_with_config_repeats bareDeps (mkConfig 2 1000) []
           initialPackage 1005 [] ltac:(simpl; lia)).
Defined.

Lemma gens_initialised n :
  forall newFunc g clk,
    gens n newFunc (mkPackage (Some g) None true) clk =
    match issue n g clk with
    | Some ((ids, g'), clk') =>
        Some ((map (fun id => (id, None)) ids,
               mkPackage (Some g') None true), clk')
    | None => None
    end.
Proof.
  induction n as [| n IH]; intros newFunc g clk; [reflexivity |].
  cbn [gens issue]. unfold bind at 1 3.
  unfold Gen, onceDo. cbn [defaultGenOnce defaultGenErr defaultGen].
  unfold bind at 1. 
  destruct (Next g clk) as [[[id g1] clk1] |]; [| reflexivity].
  unfold ret at 1. cbn [fst snd]. unfold bind at 1 2.
  rewrite IH.
  destruct (issue n g1 clk1) as [[[ids g2] clk2] |]; reflexivity.
Qed.

(** X17.  When the one construction succeeds with generator [g],
    successive calls [Gen()] all draw from [g]: what [n + 1] calls return
    is what [n + 1] successive calls of [g.Next()] return, each with a nil
    error, and the package holds the generator as those calls leave it. *)
Theorem X17_gen_default_shares_one_generator n newFunc g clk :
  newFunc None = Ok g ->
  gens (S n) newFunc initialPackage clk =
  match issue (S n) g clk with
  | Some ((ids, g'), clk') =>
      Some ((map (fun id => (id, None)) ids,
             mkPackage (Some g') None true), clk')
  | None => None
  end.
Proof.
  intros Hnew. rewrite <- gens_initialised with (newFunc := newFunc).
  cbn [gens]. unfold bind at 1 3.
  unfold Gen, onceDo, initialPackage.
  cbn [defaultGenOnce]. rewrite Hnew. reflexivity.
Qed.

Lemma X17_gen_default_shares_one_generator_witness :
  gens 3 (New hostOnlyDeps) initialPackage [1577836800010; 1577836800010;
                                            1577836800009]
  = Some (([("AAAAAAVpQAA", None); ("AAAAAAVpQAB", None);
            ("AAAAAAVpQAC", None)],
           mkPackage (Some (mkGenerator 10 2 842 1577836800000)) None true),
          []).
Proof.
  exact (X17_gen_default_shares_one_generator 2 (New hostOnlyDeps)
           (mkGenerator 0 0 842 1577836800000)
           [1577836800010; 1577836800010; 1577836800009] eq_refl).
Defined.

(** ** The image of the rendering *)

Local Open Scope string_scope.

(** X18.  The first character of the rendering of a 64-bit value holds
    its top four bits: its alphabet index is [val / 2^60], so it is one of
    the sixteen characters ['A'] to ['P']. *)
Theorem X18_leading_character val :
  0 <= val < 2 ^ 64 ->
  exists c rest,
    encode val = String c rest /\
    alphabet_index c = val / 2 ^ 60 /\ 0 <= alphabet_index c <= 15.
Proof.
  intros Hv. unfold encode. cbn [encode_loop].
  do 2 eexists. split; [reflexivity |].
  rewrite alphabet_index_at by apply land63_range.
  rewrite !Z.shiftr_shiftr by lia.
  match goal with
  | |- context [Z.shiftr val ?n] =>
      let m := eval vm_compute in n in change n with m
  end.
  change 63 with (Z.ones 6).
  rewrite Z.land_ones, Z.shiftr_div_pow2 by lia.
  assert (0 <= val / 2 ^ 60 < 16).
  { split; [apply Z.div_pos; lia | apply Z.div_lt_upper_bound; lia]. }
  rewrite Z.mod_small by lia. lia.
Qed.

Lemma X18_leading_character_witness :
  exists c rest,
    encode (2 ^ 64 - 1) = String c rest /\
    alphabet_index c = (2 ^ 64 - 1) / 2 ^ 60 /\ 0 <= alphabet_index c <= 15.
Proof. exact (X18_leading_character (2 ^ 64 - 1) ltac:(lia)). Defined.

Lemma occurs_index_in c s :
  occurs c s -> index_in c s < Z.of_nat (String.length s).
Proof.
  induction s as [| c' r IH]; cbn [index_in String.length occurs];
    [contradiction |].
  rewrite Nat2Z.inj_succ.
  destruct (Ascii.eqb_spec c c') as [-> | Hne]; [lia |].
  intros [E | H]; [contradiction | apply IH in H; lia].
Qed.

Lemma get_index_in c s :
  occurs c s -> String.get (Z.to_nat (index_in c s)) s = Some c.
Proof.
  induction s as [| c' r IH]; cbn [index_in occurs]; [contradiction |].
  destruct (Ascii.eqb_spec c c') as [-> | Hne]; [reflexivity |].
  intros [E | H]; [contradiction |].
  pose proof (index_in_bounds c r).
  rewrite Z2Nat.inj_add by lia. cbn [Z.to_nat Pos.to_nat Pos.iter_op Nat.add].
  simpl. now apply IH.
Qed.

Lemma alphabet_at_index c :
  occurs c alphabet -> alphabet_at (alphabet_index c) = c.
Proof.
  intros H. unfold alphabet_at, alphabet_index.
  now rewrite get_index_in.
Qed.

Lemma indices_inj s1 :
  forall s2,
    all_chars (fun c => occurs c alphabet) s1 ->
    all_chars (fun c => occurs c alphabet) s2 ->
    indices s1 = indices s2 -> s1 = s2.
Proof.
  induction s1 as [| a r1 IH]; intros [| b r2]; simpl;
    try discriminate; [reflexivity |].
  intros [Ha H1] [Hb H2] [= E Er].
  rewrite (IH r2 H1 H2 Er). f_equal.
  rewrite <- (alphabet_at_index a Ha), <- (alphabet_at_index b Hb).
  now rewrite E.
Qed.

Lemma indices_length s : List.length (indices s) = String.length s.
Proof. induction s; simpl; congruence. Qed.

Lemma indices_range s :
  all_chars (fun c => occurs c alphabet) s ->
  Forall (fun d => 0 <= d < 64) (indices s).
Proof.
  induction s as [| c r IH]; simpl; [constructor |].
  intros [Hc Hr]. constructor; [| now apply IH].
  pose proof (occurs_index_in c alphabet Hc) as H.
  pose proof (index_in_bounds c alphabet).
  rewrite alphabet_length in H. unfold alphabet_index. lia.
Qed.

Lemma digits_of_fold l :
  Forall (fun d => 0 <= d < 64) l ->
  0 <= fold_left (fun acc d => acc * 64 + d) l 0 /\
  digits (List.length l) (fold_left (fun acc d => acc * 64 + d) l 0) = l.
Proof.
  induction l as [| d l IH] using rev_ind; intros Hall; [split; [simpl; lia | reflexivity] |].
  apply Forall_app in Hall as [Hl Hd]. apply Forall_inv in Hd.
  destruct (IH Hl) as [Hpos Hdig].
  rewrite fold_left_app, length_app, Nat.add_1_r. cbn [fold_left List.length digits].
  set (x := fold_left _ l 0) in *.
  assert (Q : (x * 64 + d) / 64 = x)
    by (symmetry; apply Z.div_unique with (r := d); lia).
  assert (R : (x * 64 + d) mod 64 = d)
    by (symmetry; apply Z.mod_unique with (q := x); lia).
  rewrite Q, R, Hdig. split; [lia | reflexivity].
Qed.

Lemma fold_from a l :
  fold_left (fun acc d => acc * 64 + d) l a
  = a * 64 ^ Z.of_nat (List.length l)
    + fold_left (fun acc d => acc * 64 + d) l 0.
Proof.
  revert a; induction l as [| d l IH]; intros a.
  - simpl. lia.
  - cbn [fold_left List.length]. rewrite IH, (IH (0 * 64 + d)), pow64_succ. lia.
Qed.

Lemma fold_bound l :
  Forall (fun d => 0 <= d < 64) l ->
  0 <= fold_left (fun acc d => acc * 64 + d) l 0
  < 64 ^ Z.of_nat (List.length l).
Proof.
  induction 1 as [| d l Hd Hl IH].
  - simpl. lia.
  - cbn [fold_left List.length]. rewrite fold_from, pow64_succ.
    simpl (0 * 64 + d). nia.
Qed.

(** X19.  Round trip from the string side: an 11-character string over
    the alphabet whose first character is among ['A'] .. ['P'] decodes to
    a 64-bit value whose rendering is that string; together with
    [decode (encode val) = val] the rendering is a bijection between the
    64-bit values and these strings. *)
Theorem X19_encode_decode_round_trip c rest :
  String.length (String c rest) = 11%nat ->
  all_chars (fun a => occurs a alphabet) (String c rest) ->
  alphabet_index c <= 15 ->
  0 <= decode (String c rest) < 2 ^ 64 /\
  encode (decode (String c rest)) = String c rest.
Proof.
  intros Hlen Hall Hc.
  pose proof (indices_range _ Hall) as Hr.
  destruct (digits_of_fold _ Hr) as [Hpos Hdig].
  rewrite indices_length, Hlen in Hdig.
  split.
  - unfold decode. split; [exact Hpos |].
    cbn [indices fold_left]. rewrite fold_from.
    destruct Hall as [_ Hrest]. apply indices_range in Hrest.
    pose proof (fold_bound _ Hrest) as Hb.
    rewrite indices_length in *.
    injection Hlen as Hlen. rewrite Hlen in *.
    change (64 ^ Z.of_nat 10) with (2 ^ 60) in *.
    simpl (0 * 64 + alphabet_index c). lia.
  - apply indices_inj; [apply encode_alphabet | exact Hall |].
    rewrite indices_encode. exact Hdig.
Qed.

Lemma X19_encode_decode_round_trip_witness :
  0 <= decode "P_____-AIAA" < 2 ^ 64 /\
  encode (decode "P_____-AIAA") = "P_____-AIAA".
Proof.
  apply (X19_encode_decode_round_trip "P"%char "_____-AIAA").
  - reflexivity.
  - apply (encode_alphabet (decode "P_____-AIAA")).
  - vm_compute; discriminate.
Defined.

(** ** Raw character order *)

Lemma byte_ltb_prefix p s1 s2 :
  byte_ltb (p ++ s1) (p ++ s2) = byte_ltb s1 s2.
Proof.
  induction p as [| c p IH]; simpl; [reflexivity |].
  now rewrite N.ltb_irrefl, N.eqb_refl, IH.
Qed.

(** X20.  Order by character code is not issuance order.  Where a value
    ends in the digit 51 (['z']) or 61 (['9']), its successor ends in
    ['0'] or ['-'], which have smaller character codes: the successor is
    the larger string by alphabet index and the smaller one by character
    code. *)
Theorem X20_character_code_order_differs u :
  0 <= u -> u + 1 < 2 ^ 64 ->
  u mod 64 = 51 \/ u mod 64 = 61 ->
  str_lt (encode u) (encode (u + 1)) /\
  byte_ltb (encode (u + 1)) (encode u) = true.
Proof.
  intros Hu Hv Hd. split; [apply encode_lt; lia |].
  rewrite !encode_last, !Z.shiftr_div_pow2 by lia.
  change 63 with (Z.ones 6). rewrite !Z.land_ones by lia.
  change (2 ^ 6) with 64.
  pose proof (Z.div_mod u 64 ltac:(lia)) as Du.
  assert (Q : (u + 1) / 64 = u / 64)
    by (symmetry; apply Z.div_unique with (r := u mod 64 + 1); lia).
  assert (R : (u + 1) mod 64 = u mod 64 + 1)
    by (symmetry; apply Z.mod_unique with (q := u / 64); lia).
  rewrite Q, R, byte_ltb_prefix.
  destruct Hd as [-> | ->]; reflexivity.
Qed.

Lemma X20_character_code_order_differs_witness :
  str_lt "AAAAAAKAIAz" "AAAAAAKAIA0" /\
  byte_ltb "AAAAAAKAIA0" "AAAAAAKAIAz" = true.
Proof.
  exact (X20_character_code_order_differs (pack 5 1 51)
           ltac:(vm_compute; discriminate) ltac:(reflexivity)
           (or_introl eq_refl)).
Defined.

(** ** A clock that never steps back *)

Local Open Scope list_scope.
Local Open Scope Z_scope.










(** X22.  The drift guard: a call that does not find the sequence field
    exhausted records the larger of the tick it reads and the tick it had,
    from any state and for any reading; so a reading earlier than the
    recorded tick leaves the recorded tick where it was. *)
Theorem X22_recorded_tick_is_max g t rest id g' clk' :
  ~ exhausted g t ->
  Next g (t :: rest) = Some ((id, g'), clk') ->
  lastMs g' = Z.max (sub64 t (baseEpoch g)) (lastMs g) /\
  lastMs g <= lastMs g'.
Proof.
  unfold exhausted. intros Hne.
  unfold Next, bind, ret.
  destruct (Z.le_gt_cases (sub64 t (baseEpoch g)) (lastMs g)) as [Hin | Hup].
  - rewrite NextVal_same_tick by (assumption || lia).
    intros [= _ <- _]. cbn [snd lastMs]. lia.
  - rewrite NextVal_advanced by assumption.
    intros [= _ <- _]. cbn [snd lastMs]. lia.
Qed.

Lemma X22_recorded_tick_is_max_witness :
  let g' := mkGenerator 5 8 1 1000 in
  lastMs g' = Z.max (sub64 1003 1000) 5 /\ 5 <= lastMs g'.
Proof.
  apply (X22_recorded_tick_is_max (mkGenerator 5 7 1 1000) 1003 [1009]
           "AAAAAAKAIAI"%string (mkGenerator 5 8 1 1000) [1009]).
  - unfold exhausted. vm_compute. intros [_ H]. now apply H.
  - reflexivity.
Defined.
